(** * The content safety scanner of [streamlit_app.py]

    A shallow embedding of [normalize_text] and [safety_scan_topic] (with its
    nested [collect]) and the properties of the scanner.

    The code is embedded twice.  First as functions on JSON trees, where a
    list under construction is the accumulator of its loop; the properties
    of what is extracted and reported are stated there.  Then, in [Store],
    as a program on Python's store of list and dict objects, with dynamic
    types, exceptions and a bound on calls and iterations; that it changes
    no object of the topic is stated there, and [safety_scan_topic_refines]
    ties the two together.  [Limited] runs the program of [Store] under
    the interpreter's bound on nested calls; when the scan raises is stated
    there.

    Text is modelled as [string]: a sequence of one-byte code points, read as
    Latin-1 (U+0000 to U+00FF).  On that range Python's [str.isspace], the
    regular expression class [\s] and [str.lower] are the finite tables
    [isspace] and [lower_char] below, and [str.lower] maps one character to
    one character. *)

From Stdlib Require Import Ascii DecimalString ZArith QArith Lia.
From stdpp Require Import base list strings gmap.

(** ** Characters *)

(** [str.isspace] / [\s] on one character: TAB, LF, VT, FF, CR, the four
    separators FS, GS, RS, US, the space, NEL (U+0085) and NBSP (U+00A0). *)
Definition isspace (c : ascii) : bool :=
  let n := nat_of_ascii c in
  ((9 <=? n) && (n <=? 13)) || ((28 <=? n) && (n <=? 32))
  || (n =? 133) || (n =? 160).

(** [str.lower] on one character: A-Z, and the Latin-1 capitals U+00C0 to
    U+00DE without the multiplication sign U+00D7, move up by 32. *)
Definition lower_char (c : ascii) : ascii :=
  let n := nat_of_ascii c in
  if ((65 <=? n) && (n <=? 90))
     || ((192 <=? n) && (n <=? 222) && negb (n =? 215))
  then ascii_of_nat (n + 32) else c.

(** The character class of the pattern [[.!?]]. *)
Definition is_terminal (c : ascii) : bool :=
  Ascii.eqb c "." || Ascii.eqb c "!" || Ascii.eqb c "?".

(** ** Strings *)

(** [s.lower()] *)
Fixpoint lower (s : string) : string :=
  match s with
  | EmptyString => EmptyString
  | String c s' => String (lower_char c) (lower s')
  end.

(** [s.startswith(p)], the test at one position of [p in s]. *)
Fixpoint startswith (p s : string) : bool :=
  match p, s with
  | EmptyString, _ => true
  | String _ _, EmptyString => false
  | String a p', String b s' => Ascii.eqb a b && startswith p' s'
  end.

(** [p in s]: [p] occurs in [s] at some position. *)
Fixpoint contains (p s : string) : bool :=
  startswith p s ||
  match s with
  | EmptyString => false
  | String _ s' => contains p s'
  end.

(** [s[:n]] *)
Fixpoint slice_to (n : nat) (s : string) : string :=
  match n, s with
  | S n', String c s' => String c (slice_to n' s')
  | _, _ => EmptyString
  end.

(** [s.lstrip()], [s.rstrip()] and [s.strip()] *)
Fixpoint lstrip (s : string) : string :=
  match s with
  | EmptyString => EmptyString
  | String c s' => if isspace c then lstrip s' else s
  end.

Fixpoint rstrip (s : string) : string :=
  match s with
  | EmptyString => EmptyString
  | String c s' =>
      match rstrip s' with
      | EmptyString => if isspace c then EmptyString else String c EmptyString
      | r => String c r
      end
  end.

Definition strip (s : string) : string := rstrip (lstrip s).

(** [s.split()]: the maximal runs of non-whitespace characters. *)
Fixpoint str_split (s : string) : list string :=
  match s with
  | EmptyString => []
  | String c s' =>
      if isspace c then str_split s'
      else match s' with
           | EmptyString => [String c EmptyString]
           | String c' _ =>
               if isspace c' then String c EmptyString :: str_split s'
               else match str_split s' with
                    | w :: ws => String c w :: ws
                    | [] => [String c EmptyString]
                    end
           end
  end.

(** [re.split(r"[.!?]", s)]: cut at every terminal character; the pieces
    between two cuts, before the first and after the last are all kept, the
    empty ones too. *)
Fixpoint re_split (s : string) : list string :=
  match s with
  | EmptyString => [EmptyString]
  | String c s' =>
      if is_terminal c then EmptyString :: re_split s'
      else match re_split s' with
           | seg :: segs => String c seg :: segs
           | [] => [String c EmptyString]
           end
  end.

(** [re.sub(r"\s+", " ", s)]: every maximal run of whitespace becomes one
    space.  [in_run] tells that the character before was whitespace. *)
Fixpoint re_sub_from (in_run : bool) (s : string) : string :=
  match s with
  | EmptyString => EmptyString
  | String c s' =>
      if isspace c
      then if in_run then re_sub_from true s'
           else String " " (re_sub_from true s')
      else String c (re_sub_from false s')
  end.

Definition re_sub (s : string) : string := re_sub_from false s.

(** [normalize_text]; on a string [s], the operand [s or ...] is [s]. *)
Definition normalize_text (s : string) : string :=
  lower (strip (re_sub s)).

(** [bool(sent)] of a string: it is not empty. *)
Definition truthy (s : string) : bool :=
  match s with EmptyString => false | String _ _ => true end.

(** [str(n)] of a natural number, as an f-string prints it. *)
Definition str_of_nat (n : nat) : string :=
  NilEmpty.string_of_uint (Nat.to_uint n).

(** The double quote, which the first message carries around the phrase. *)
Definition dquote : string := String (ascii_of_nat 34) EmptyString.

(** ** The policy table *)

Definition BANNED_PHRASES : list string :=
  [ "you should take";
    "take ";
    "go to the er";
    "don't need a doctor";
    "dont need a doctor";
    "most likely";
    "this means you have";
    "diagnosis:";
    "start taking";
    "stop taking";
    "dose";
    "dosage" ].

(** ** JSON values, as [json.load] builds them

    A [dict] keeps its items in insertion order and [values()] walks them in
    that order, so an object is the list of its items. *)
#[warnings="-register-all"]
Inductive json : Type :=
  | JNull
  | JBool (b : bool)
  | JInt (z : Z)
  | JFloat (q : Q)
  | JStr (s : string)
  | JList (items : list json)
  | JDict (fields : list (string * json)).

(** ** The scanner *)

(** The two f-strings. *)
Definition banned_msg (phrase s : string) : string :=
  "Banned phrase " +:+ dquote +:+ phrase +:+ dquote +:+ " found in: "
  +:+ slice_to 140 s +:+ "...".

Definition long_msg (wc : nat) (sent : string) : string :=
  "Long sentence (" +:+ str_of_nat wc +:+ " words): "
  +:+ slice_to 140 sent +:+ "...".

(** [collect]: both loops start from [out = []] and extend it with what
    the recursive call returns. *)
Fixpoint collect (v : json) : list string :=
  match v with
  | JStr s => [s]
  | JList items =>
      fold_left (fun out item => out ++ collect item) items []
  | JDict fields =>
      (* [for vv in v.values()]: the second component of every item *)
      fold_left (fun out kv => out ++ collect (snd kv)) fields []
  | _ => []
  end.

(** The loop [for phrase in BANNED_PHRASES], with its [break]. *)
Fixpoint banned_loop (warnings : list string) (s low : string)
    (phrases : list string) : list string :=
  match phrases with
  | [] => warnings
  | phrase :: rest =>
      if contains phrase low
      then warnings ++ [banned_msg phrase s]
      else banned_loop warnings s low rest
  end.

(** The loop [for sent in re.split(...)], with its [continue] and [break]. *)
Fixpoint sentence_loop (warnings : list string) (sents : list string)
    : list string :=
  match sents with
  | [] => warnings
  | sent :: rest =>
      let sent := strip sent in
      if negb (truthy sent) then sentence_loop warnings rest
      else
        let wc := length (str_split sent) in
        if 25 <? wc
        then warnings ++ [long_msg wc sent]
        else sentence_loop warnings rest
  end.

(** The body of [for s in strings]. *)
Definition scan_string (warnings : list string) (s : string) : list string :=
  let low := lower s in
  let warnings := banned_loop warnings s low BANNED_PHRASES in
  sentence_loop warnings (re_split s).

Definition safety_scan_topic (topic : json) : list string :=
  let warnings := [] in
  let strings := collect topic in
  fold_left scan_string strings warnings.

(** ** Notions the properties are stated with *)

(** What one string adds to [warnings]: the first inner loop and the second,
    each run on an empty list. *)
Definition banned_warnings (s : string) : list string :=
  banned_loop [] s (lower s) BANNED_PHRASES.

Definition long_warnings (s : string) : list string :=
  sentence_loop [] (re_split s).

(** The candidate sentences of a string: the pieces, stripped, without the
    empty ones. *)
Definition sentences (s : string) : list string :=
  filter (fun sent => truthy sent = true) (strip <$> re_split s).

Definition word_count (sent : string) : nat := length (str_split sent).

(** All characters of a string are whitespace (so also the empty string). *)
Fixpoint all_space (s : string) : bool :=
  match s with
  | EmptyString => true
  | String c s' => isspace c && all_space s'
  end.

(** Some character of the string satisfies [f]. *)
Fixpoint has_char (f : ascii -> bool) (s : string) : bool :=
  match s with
  | EmptyString => false
  | String c s' => f c || has_char f s'
  end.

(** The pieces [segs] put back around the separators [seps]. *)
Fixpoint interleave (segs : list string) (seps : list ascii) : string :=
  match segs, seps with
  | seg :: segs', sep :: seps' => seg +:+ String sep (interleave segs' seps')
  | seg :: _, [] => seg
  | [], _ => EmptyString
  end.

(** The number of places where a word begins: a character that is not
    whitespace, at the start or after whitespace. *)
Fixpoint word_starts (after_space : bool) (s : string) : nat :=
  match s with
  | EmptyString => 0
  | String c s' =>
      (if after_space && negb (isspace c) then 1 else 0)
      + word_starts (isspace c) s'
  end.

(** How often the string [x] stands in a list, and how often it is a leaf of
    a tree. *)
Definition occurrences (x : string) (l : list string) : nat :=
  length (filter (fun y => String.eqb y x = true) l).

Fixpoint leaf_count (x : string) (v : json) : nat :=
  match v with
  | JStr s => if String.eqb s x then 1 else 0
  | JList items => foldr (fun item n => leaf_count x item + n) 0 items
  | JDict fields => foldr (fun kv n => leaf_count x (snd kv) + n) 0 fields
  | _ => 0
  end.

(** ** The same code on Python's object store

    [collect] builds and extends list objects and [safety_scan_topic] appends
    to one; the topic is a graph of list and dict objects that the caller
    keeps.  Here values are dynamically typed and objects live in a store, a
    method of the wrong type raises, and every loop reads the object it
    walks from the store at each step, as Python's iterators do. *)
Module Store.

Definition loc := positive.

Inductive pyval : Type :=
  | VNone
  | VBool (b : bool)
  | VInt (z : Z)
  | VFloat (q : Q)
  | VStr (s : string)
  | VRef (l : loc).

Inductive pyobj : Type :=
  | OList (items : list pyval)
  | ODict (fields : list (string * pyval)).

Abbreviation store := (gmap loc pyobj).

(** The exception of a method that the object does not have. *)
Inductive exn : Type := AttributeError.

(** A run ends with a value and a store, raises, is cut by the bound on the
    number of calls and iterations, or meets an address with no object,
    which no Python program does. *)
Inductive outcome (A : Type) : Type :=
  | Done (a : A) (st : store)
  | Raise (e : exn)
  | OutOfFuel
  | Dangling.
Arguments Done {A} a st.
Arguments Raise {A} e.
Arguments OutOfFuel {A}.
Arguments Dangling {A}.

Definition bind {A B} (m : store -> outcome A) (k : A -> store -> outcome B)
    (st : store) : outcome B :=
  match m st with
  | Done a st' => k a st'
  | Raise e => Raise e
  | OutOfFuel => OutOfFuel
  | Dangling => Dangling
  end.

Definition ret {A} (a : A) (st : store) : outcome A := Done a st.

Notation "'let*' x ':=' m 'in' k" := (bind m (fun x => k))
  (at level 10, x name, m at level 100, k at level 200).
Notation "'run' m 'then' k" := (bind m (fun _ => k))
  (at level 10, m at level 100, k at level 200).

(** A list display: a new object at an address not in use. *)
Definition new_list (items : list pyval) (st : store) : outcome loc :=
  let l := fresh (dom st) in Done l (<[l := OList items]> st).

(** What iterating over an object yields at position [i]: the items of a
    list, the values of a dict ([v.values()]). *)
Definition item_at (o : pyobj) (i : nat) : option pyval :=
  match o with
  | OList items => items !! i
  | ODict fields => snd <$> fields !! i
  end.

(** [out.extend(src)]; iterating over a dict yields its keys. *)
Definition extend (out src : loc) (st : store) : outcome unit :=
  match st !! out, st !! src with
  | Some (OList xs), Some (OList ys) =>
      Done tt (<[out := OList (xs ++ ys)]> st)
  | Some (OList xs), Some (ODict fields) =>
      Done tt (<[out := OList (xs ++ ((fun kv => VStr (fst kv)) <$> fields))]> st)
  | Some (ODict _), Some _ => Raise AttributeError
  | _, _ => Dangling
  end.

(** [warnings.append(x)] *)
Definition append (out : loc) (x : pyval) (st : store) : outcome unit :=
  match st !! out with
  | Some (OList xs) => Done tt (<[out := OList (xs ++ [x])]> st)
  | Some (ODict _) => Raise AttributeError
  | None => Dangling
  end.

(** [collect], and the loop of its list and dict branches from position [i]
    on.  [isinstance] looks at the object a reference points to. *)
Fixpoint collect (fuel : nat) (v : pyval) (st : store) : outcome loc :=
  match fuel with
  | 0 => OutOfFuel
  | S fuel =>
      match v with
      | VStr _ => new_list [v] st
      | VRef l =>
          match st !! l with
          | Some _ =>
              (let* out := new_list [] in
               run collect_loop fuel l 0 out then
               ret out) st
          | None => Dangling
          end
      | _ => new_list [] st
      end
  end
with collect_loop (fuel : nat) (l : loc) (i : nat) (out : loc) (st : store)
    : outcome unit :=
  match fuel with
  | 0 => OutOfFuel
  | S fuel =>
      match st !! l with
      | Some o =>
          match item_at o i with
          | Some item =>
              (let* r := collect fuel item in
               run extend out r then
               collect_loop fuel l (S i) out) st
          | None => Done tt st
          end
      | None => Dangling
      end
  end.

(** The two inner loops; the table and the pieces of [re.split] are not
    touched by the body, so they are walked as values. *)
Fixpoint banned_loop (warnings : loc) (s low : string)
    (phrases : list string) (st : store) : outcome unit :=
  match phrases with
  | [] => Done tt st
  | phrase :: rest =>
      if contains phrase low
      then append warnings (VStr (banned_msg phrase s)) st
      else banned_loop warnings s low rest st
  end.

Fixpoint sentence_loop (warnings : loc) (sents : list string) (st : store)
    : outcome unit :=
  match sents with
  | [] => Done tt st
  | sent :: rest =>
      let sent := strip sent in
      if negb (truthy sent) then sentence_loop warnings rest st
      else
        let wc := length (str_split sent) in
        if 25 <? wc
        then append warnings (VStr (long_msg wc sent)) st
        else sentence_loop warnings rest st
  end.

(** The body of [for s in strings]: [s.lower()] exists on strings only. *)
Definition scan_string (warnings : loc) (s : pyval) (st : store)
    : outcome unit :=
  match s with
  | VStr s =>
      let low := lower s in
      (run banned_loop warnings s low BANNED_PHRASES then
       sentence_loop warnings (re_split s)) st
  | _ => Raise AttributeError
  end.

(** [for s in strings], from position [i] on. *)
Fixpoint scan_loop (fuel : nat) (strings : loc) (i : nat) (warnings : loc)
    (st : store) : outcome unit :=
  match fuel with
  | 0 => OutOfFuel
  | S fuel =>
      match st !! strings with
      | Some o =>
          match item_at o i with
          | Some s =>
              (run scan_string warnings s then
               scan_loop fuel strings (S i) warnings) st
          | None => Done tt st
          end
      | None => Dangling
      end
  end.

Definition safety_scan_topic (fuel : nat) (topic : pyval) : store -> outcome loc :=
  let* warnings := new_list [] in
  let* strings := collect fuel topic in
  run scan_loop fuel strings 0 warnings then
  ret warnings.

(** The store [st] holds the tree [t] at the value [v]. *)
#[warnings="-register-all"]
Inductive repr (st : store) : pyval -> json -> Prop :=
  | repr_null : repr st VNone JNull
  | repr_bool b : repr st (VBool b) (JBool b)
  | repr_int z : repr st (VInt z) (JInt z)
  | repr_float q : repr st (VFloat q) (JFloat q)
  | repr_str s : repr st (VStr s) (JStr s)
  | repr_list l vs ts :
      st !! l = Some (OList vs) ->
      Forall2 (repr st) vs ts ->
      repr st (VRef l) (JList ts)
  | repr_dict l vfs tfs :
      st !! l = Some (ODict vfs) ->
      Forall2 (fun vf tf => fst vf = fst tf /\ repr st (snd vf) (snd tf)) vfs tfs ->
      repr st (VRef l) (JDict tfs).

(** The values a loop over an object walks through. *)
Definition children (o : pyobj) : list pyval :=
  match o with
  | OList items => items
  | ODict fields => snd <$> fields
  end.

(** The list of strings an address holds, if it holds one. *)
Definition read_strings (st : store) (l : loc) : option (list string) :=
  match st !! l with
  | Some (OList items) =>
      mapM (fun v => match v with VStr s => Some s | _ => None end) items
  | _ => None
  end.

End Store.

(** [collect] on [v] ends well and returns a new list object with the
    strings [strings]; every object of the store before is as it was. *)
Definition collect_returns (fuel : nat) (st : Store.store) (v : Store.pyval)
    (strings : list string) : Prop :=
  exists r st',
    Store.collect fuel v st = Store.Done r st'
    /\ st ⊆ st'
    /\ st !! r = None
    /\ st' !! r = Some (Store.OList (Store.VStr <$> strings)).

(** The same for a whole scan and its list of warnings. *)
Definition scan_returns (fuel : nat) (st : Store.store) (topic : Store.pyval)
    (warnings : list string) : Prop :=
  exists w st',
    Store.safety_scan_topic fuel topic st = Store.Done w st'
    /\ st ⊆ st'
    /\ st !! w = None
    /\ Store.read_strings st' w = Some warnings.

(** A small store: a topic with a text field, a list field and a number,
    and the tree it holds. *)
Definition example_store : Store.store :=
  <[ 1%positive :=
       Store.ODict [ ("summary", Store.VStr "Take a dose.");
                     ("steps", Store.VRef 2%positive);
                     ("reviewed", Store.VInt 2024) ] ]>
    (<[ 2%positive :=
          Store.OList [ Store.VStr "most likely"; Store.VNone ] ]> ∅).

Definition example_topic : Store.pyval := Store.VRef 1%positive.

Definition example_tree : json :=
  JDict [ ("summary", JStr "Take a dose.");
          ("steps", JList [ JStr "most likely"; JNull ]);
          ("reviewed", JInt 2024) ].

(** ** The interpreter's bound on nested calls

    Python raises [RecursionError] when calls nest deeper than
    [sys.getrecursionlimit()], 1000 unless it was set.  [collect] calls
    itself once for every level of the topic.  In [Limited] the scan runs
    on the store as in [Store], with two numbers more: [limit], how many
    calls can still nest when the body of [safety_scan_topic] runs, and
    [lib_frames], how many of them the call [re.split(...)] needs, for
    itself and for what it calls in the library.  The library is not code
    of this repository, so [lib_frames] stays a parameter.  The methods
    of strings and lists are not calls of Python functions. *)

(** How deep the calls of [collect] nest on a tree. *)
Fixpoint depth (v : json) : nat :=
  match v with
  | JList items => S (foldr (fun item d => depth item `max` d) 0 items)
  | JDict fields => S (foldr (fun kv d => depth (snd kv) `max` d) 0 fields)
  | _ => 1
  end.

Module Limited.

Inductive exn : Type := AttributeError | RecursionError.

Inductive outcome (A : Type) : Type :=
  | Done (a : A) (st : Store.store)
  | Raise (e : exn)
  | OutOfFuel
  | Dangling.
Arguments Done {A} a st.
Arguments Raise {A} e.
Arguments OutOfFuel {A}.
Arguments Dangling {A}.

(** A step that makes no call of a Python function goes as in [Store]. *)
Definition lift {A} (r : Store.outcome A) : outcome A :=
  match r with
  | Store.Done a st => Done a st
  | Store.Raise Store.AttributeError => Raise AttributeError
  | Store.OutOfFuel => OutOfFuel
  | Store.Dangling => Dangling
  end.

Definition bind {A B} (m : Store.store -> outcome A)
    (k : A -> Store.store -> outcome B) (st : Store.store) : outcome B :=
  match m st with
  | Done a st' => k a st'
  | Raise e => Raise e
  | OutOfFuel => OutOfFuel
  | Dangling => Dangling
  end.

Definition ret {A} (a : A) (st : Store.store) : outcome A := Done a st.

Notation "'let*' x ':=' m 'in' k" := (bind m (fun x => k))
  (at level 10, x name, m at level 100, k at level 200).
Notation "'run' m 'then' k" := (bind m (fun _ => k))
  (at level 10, m at level 100, k at level 200).

Definition new_list (items : list Store.pyval) (st : Store.store)
    : outcome Store.loc :=
  lift (Store.new_list items st).

Definition extend (out src : Store.loc) (st : Store.store) : outcome unit :=
  lift (Store.extend out src st).

(** [collect]: a call with no room left raises; the calls inside have the
    room that is left after this one. *)
Fixpoint collect (fuel limit : nat) (v : Store.pyval) (st : Store.store)
    : outcome Store.loc :=
  match fuel with
  | 0 => OutOfFuel
  | S fuel =>
      match limit with
      | 0 => Raise RecursionError
      | S limit =>
          match v with
          | Store.VStr _ => new_list [v] st
          | Store.VRef l =>
              match st !! l with
              | Some _ =>
                  (let* out := new_list [] in
                   run collect_loop fuel limit l 0 out then
                   ret out) st
              | None => Dangling
              end
          | _ => new_list [] st
          end
      end
  end
with collect_loop (fuel limit : nat) (l : Store.loc) (i : nat)
    (out : Store.loc) (st : Store.store) : outcome unit :=
  match fuel with
  | 0 => OutOfFuel
  | S fuel =>
      match st !! l with
      | Some o =>
          match Store.item_at o i with
          | Some item =>
              (let* r := collect fuel limit item in
               run extend out r then
               collect_loop fuel limit l (S i) out) st
          | None => Done tt st
          end
      | None => Dangling
      end
  end.

(** The body of [for s in strings]: the first loop calls methods only; the
    second starts with the call of [re.split]. *)
Definition scan_string (lib_frames limit : nat) (warnings : Store.loc)
    (s : Store.pyval) (st : Store.store) : outcome unit :=
  match s with
  | Store.VStr s =>
      let low := lower s in
      (run (fun st => lift (Store.banned_loop warnings s low BANNED_PHRASES st))
       then
       (fun st =>
          if limit <? lib_frames then Raise RecursionError
          else lift (Store.sentence_loop warnings (re_split s) st))) st
  | _ => Raise AttributeError
  end.

Fixpoint scan_loop (fuel lib_frames limit : nat) (strings : Store.loc)
    (i : nat) (warnings : Store.loc) (st : Store.store) : outcome unit :=
  match fuel with
  | 0 => OutOfFuel
  | S fuel =>
      match st !! strings with
      | Some o =>
          match Store.item_at o i with
          | Some s =>
              (run scan_string lib_frames limit warnings s then
               scan_loop fuel lib_frames limit strings (S i) warnings) st
          | None => Done tt st
          end
      | None => Dangling
      end
  end.

Definition safety_scan_topic (fuel lib_frames limit : nat)
    (topic : Store.pyval) : Store.store -> outcome Store.loc :=
  let* warnings := new_list [] in
  let* strings := collect fuel limit topic in
  run scan_loop fuel lib_frames limit strings 0 warnings then
  ret warnings.

End Limited.

(** What [Limited.collect] does on a value that holds the tree [t], given
    [n] rounds of fuel: with room for the depth of the tree it returns a
    new list with the strings of the tree and keeps the store before;
    with less room it raises [RecursionError]. *)
Definition limited_collect_spec (n : nat) (t : json) : Prop :=
  forall fuel limit st v,
    n <= fuel ->
    Store.repr st v t ->
    (depth t <= limit ->
     exists r st',
       Limited.collect fuel limit v st = Limited.Done r st'
       /\ st ⊆ st'
       /\ st !! r = None
       /\ st' !! r = Some (Store.OList (Store.VStr <$> collect t)))
    /\ (limit < depth t ->
        Limited.collect fuel limit v st
        = Limited.Raise Limited.RecursionError).

(** A store of [k + 1] lists, one in the other from the address [l] on,
    with a string in the last, and the tree it holds. *)
Fixpoint deep_store (k : nat) (l : Store.loc) : Store.store :=
  match k with
  | 0 => {[ l := Store.OList [ Store.VStr "dose" ] ]}
  | S k' =>
      <[ l := Store.OList [ Store.VRef (Pos.succ l) ] ]>
        (deep_store k' (Pos.succ l))
  end.

Fixpoint deep_tree (k : nat) : json :=
  match k with
  | 0 => JList [ JStr "dose" ]
  | S k' => JList [ deep_tree k' ]
  end.

(** ** The search, the filter of the page and the image name

    Here a call ends with a value or raises. *)

Inductive exception : Type := AttributeError | TypeError | IndexError.

Inductive result (A : Type) : Type :=
  | Ok (a : A)
  | Raise (e : exception).
Arguments Ok {A} a.
Arguments Raise {A} e.

Definition and_then {A B} (r : result A) (k : A -> result B) : result B :=
  match r with
  | Ok a => k a
  | Raise e => Raise e
  end.

(** [v.get(key, default)]: dicts have the method, other values do not.
    The keys of a dict are distinct, so the first item with the key is the
    one item with it. *)
Definition dict_get (v : json) (key : string) (default : json)
    : result json :=
  match v with
  | JDict fields =>
      Ok match find (fun kv => String.eqb (fst kv) key) fields with
         | Some kv => snd kv
         | None => default
         end
  | _ => Raise AttributeError
  end.

(** [sep.join(items)] on strings. *)
Fixpoint join (sep : string) (items : list string) : string :=
  match items with
  | [] => EmptyString
  | [x] => x
  | x :: rest => x +:+ sep +:+ join sep rest
  end.

(** The items of a list as strings, as [join] wants them: the first item
    that is no string raises. *)
Fixpoint str_items (items : list json) : result (list string) :=
  match items with
  | [] => Ok []
  | JStr s :: rest => and_then (str_items rest) (fun l => Ok (s :: l))
  | _ :: _ => Raise TypeError
  end.

Definition join_values (sep : string) (items : list json) : result string :=
  and_then (str_items items) (fun l => Ok (join sep l)).

Definition matches_search (topic : json) (q : string) : result bool :=
  if negb (truthy q) then Ok true
  else
    let qn := normalize_text q in
    and_then (dict_get topic "title" (JStr EmptyString)) (fun title =>
    and_then (dict_get topic "oneMinuteSummary" (JStr EmptyString))
      (fun summary =>
    and_then (dict_get topic "eli5Summary" (JStr EmptyString)) (fun eli5 =>
    and_then (join_values " " [title; summary; eli5]) (fun hay =>
    Ok (contains qn (normalize_text hay)))))).

(** [v != s] for a string [s]: only the same string is equal to it. *)
Definition differs_from_str (v : json) (s : string) : bool :=
  match v with
  | JStr x => negb (String.eqb x s)
  | _ => true
  end.

(** The body of the loop [for t in topics] that fills [filtered]: [Ok true]
    when [t] is appended, [Ok false] when a [continue] is taken. *)
Definition keeps_topic (category q : string) (t : json) : result bool :=
  if negb (String.eqb category "All")
  then and_then (dict_get t "category" JNull) (fun c =>
         if differs_from_str c category then Ok false
         else matches_search t q)
  else matches_search t q.

Fixpoint filter_loop (category q : string) (topics filtered : list json)
    : result (list json) :=
  match topics with
  | [] => Ok filtered
  | t :: rest =>
      and_then (keeps_topic category q t) (fun keep =>
        filter_loop category q rest
          (if keep then filtered ++ [t] else filtered))
  end.

Definition filter_topics (category q : string) (topics : list json)
    : result (list json) :=
  filter_loop category q topics [].

(** [s.lstrip(chars)] *)
Fixpoint lstrip_chars (chars s : string) : string :=
  match s with
  | EmptyString => EmptyString
  | String c s' =>
      if has_char (Ascii.eqb c) chars then lstrip_chars chars s' else s
  end.

(** [s.replace(old, new)] for a non-empty [old]: the occurrences of [old]
    are taken from the left and do not overlap; after one is found the
    [skip] characters left of it are passed over. *)
Fixpoint replace_from (skip : nat) (old new s : string) : string :=
  match s with
  | EmptyString => EmptyString
  | String c s' =>
      match skip with
      | S k => replace_from k old new s'
      | 0 =>
          if startswith old s
          then new +:+ replace_from (String.length old - 1) old new s'
          else String c (replace_from 0 old new s')
      end
  end.

(** With an empty [old], [new] goes before every character and at the
    end. *)
Fixpoint replace_empty (new s : string) : string :=
  match s with
  | EmptyString => new
  | String c s' => new +:+ String c (replace_empty new s')
  end.

Definition replace (old new s : string) : string :=
  match old with
  | EmptyString => replace_empty new s
  | String _ _ => replace_from 0 old new s
  end.

(** The line [fname = ...] of [render_image]. *)
Definition image_fname (src : string) : string :=
  lstrip_chars "/" (replace "/images/" EmptyString src).

(** [range(start, stop, step)]; with a step of at least one, [stop] rounds
    are enough. *)
Fixpoint range_from (rounds start stop step : nat) : list nat :=
  match rounds with
  | 0 => []
  | S rounds' =>
      if start <? stop
      then start :: range_from rounds' (start + step) stop step
      else []
  end.

Definition range (start stop step : nat) : list nat :=
  range_from stop start stop step.

(** The grid of cards: the two loops over rows and columns.  What the body
    of the inner loop does with the topic after [t = filtered[idx]] (the
    card and its expander: calls of the page library and of [t.get]) is
    [draw], which can raise; a card drawn is recorded with its column and
    its topic.  [filtered[idx]] raises out of range. *)
Record cell (A : Type) : Type :=
  Cell { cell_column : nat; cell_topic : json; cell_drawn : A }.
Arguments Cell {A} cell_column cell_topic cell_drawn.
Arguments cell_column {A} c.
Arguments cell_topic {A} c.
Arguments cell_drawn {A} c.

Fixpoint row_cells {A} (draw : nat -> json -> result A)
    (filtered : list json) (i : nat) (columns : list nat)
    : result (list (cell A)) :=
  match columns with
  | [] => Ok []
  | j :: rest =>
      let idx := i + j in
      if length filtered <=? idx then Ok []
      else
        match filtered !! idx with
        | Some t =>
            and_then (draw j t) (fun drawn =>
            and_then (row_cells draw filtered i rest) (fun cells =>
              Ok (Cell j t drawn :: cells)))
        | None => Raise IndexError
        end
  end.

Definition cols_per_row : nat := 2.

Fixpoint grid_rows {A} (draw : nat -> json -> result A)
    (filtered : list json) (starts : list nat)
    : result (list (list (cell A))) :=
  match starts with
  | [] => Ok []
  | i :: rest =>
      and_then (row_cells draw filtered i (range 0 cols_per_row 1))
        (fun row =>
      and_then (grid_rows draw filtered rest) (fun rows => Ok (row :: rows)))
  end.

Definition render_grid {A} (draw : nat -> json -> result A)
    (filtered : list json) : result (list (list (cell A))) :=
  grid_rows draw filtered (range 0 (length filtered) cols_per_row).

(** What holds of the rows of a grid that was drawn from position [i] on. *)
Definition grid_drawn {A} (draw : nat -> json -> result A)
    (topics : list json) (rows : list (list (cell A))) : Prop :=
  List.concat (map (map cell_topic) rows) = topics
  /\ Forall (fun row =>
               row <> []
               /\ map cell_column row = seq 0 (length row)
               /\ Forall (fun c =>
                            draw (cell_column c) (cell_topic c)
                            = Ok (cell_drawn c)) row) rows
  /\ (forall before last,
        rows = before ++ [last] ->
        Forall (fun row => length row = cols_per_row) before).

(** * Properties *)

(** ** Induction on trees, with the children of a node *)

Lemma json_ind' (P : json -> Prop) :
  P JNull ->
  (forall b, P (JBool b)) ->
  (forall z, P (JInt z)) ->
  (forall q, P (JFloat q)) ->
  (forall s, P (JStr s)) ->
  (forall items, Forall P items -> P (JList items)) ->
  (forall fields, Forall (fun kv => P (snd kv)) fields -> P (JDict fields)) ->
  forall v, P v.
Proof.
  intros Hnull Hbool Hint Hfloat Hstr Hlist Hdict.
  fix IH 1. intros [ | b | z | q | s | items | fields ].
  - exact Hnull.
  - apply Hbool.
  - apply Hint.
  - apply Hfloat.
  - apply Hstr.
  - apply Hlist. induction items as [ | item items IHitems ]; constructor.
    + apply IH.
    + exact IHitems.
  - apply Hdict. induction fields as [ | [k vv] fields IHfields ]; constructor.
    + apply IH.
    + exact IHfields.
Qed.

(** ** Strings *)

Lemma append_nil_l (b : string) : EmptyString +:+ b = b.
Proof. reflexivity. Qed.

Lemma append_cons (c : ascii) (a b : string) :
  String c a +:+ b = String c (a +:+ b).
Proof. reflexivity. Qed.

Ltac app_simpl := rewrite ?append_cons, ?append_nil_l in *.

Lemma append_nil_r (s : string) : s +:+ EmptyString = s.
Proof. induction s as [ | c s IH ]; app_simpl; [ done | by rewrite IH ]. Qed.

Lemma append_assoc (a b c : string) : (a +:+ b) +:+ c = a +:+ b +:+ c.
Proof. induction a as [ | x a IH ]; app_simpl; [ done | by rewrite IH ]. Qed.

Lemma append_length (a b : string) :
  String.length (a +:+ b) = String.length a + String.length b.
Proof.
  induction a as [ | x a IH ]; app_simpl; [ done | ]. cbn. by rewrite IH.
Qed.

Lemma startswith_spec (p s : string) :
  startswith p s = true <-> exists b, s = p +:+ b.
Proof.
  revert s. induction p as [ | a p IH ]; intros s; cbn.
  - split; [ intros _; by exists s | done ].
  - destruct s as [ | c s ].
    + split; [ done | intros [b Hb]; discriminate ].
    + rewrite andb_true_iff, Ascii.eqb_eq, IH. split.
      * intros [-> [b ->]]. by exists b.
      * intros [b Hb]. app_simpl. injection Hb as -> ->.
        split; [ done | by exists b ].
Qed.

(** [p in s] is: [s] is some text, then [p], then some text. *)
Lemma contains_spec (p s : string) :
  contains p s = true <-> exists a b, s = a +:+ p +:+ b.
Proof.
  induction s as [ | c s IH ].
  - cbn. rewrite orb_false_r, startswith_spec. split.
    + intros [b Hb]. by exists EmptyString, b.
    + intros [[ | x a] [b Hb]]; [ by exists b | discriminate ].
  - cbn [contains]. rewrite orb_true_iff, startswith_spec, IH. split.
    + intros [[b Hb] | (a & b & Hab)].
      * by exists EmptyString, b.
      * exists (String c a), b. app_simpl. by rewrite Hab.
    + intros ([ | x a] & b & Hab).
      * left. by exists b.
      * right. app_simpl. injection Hab as -> ->. by exists a, b.
Qed.

Lemma slice_to_prefix (n : nat) (s : string) :
  exists rest, s = slice_to n s +:+ rest.
Proof.
  revert s. induction n as [ | n IH ]; intros s.
  - exists s. by destruct s.
  - destruct s as [ | c s ]; cbn.
    + by exists EmptyString.
    + destruct (IH s) as [rest Hrest]. exists rest. app_simpl.
      by rewrite <- Hrest.
Qed.

Lemma slice_to_length (n : nat) (s : string) :
  String.length (slice_to n s) = n `min` String.length s.
Proof.
  revert s. induction n as [ | n IH ]; intros s; [ by destruct s | ].
  destruct s as [ | c s ]; cbn; [ done | by rewrite IH ].
Qed.

Lemma slice_to_short (n : nat) (s : string) :
  String.length s <= n -> slice_to n s = s.
Proof.
  revert s. induction n as [ | n IH ]; intros [ | c s ] Hlen; cbn in *;
    try done; try lia.
  rewrite IH; [ done | lia ].
Qed.


(** ** The loops, as functions of the list they extend *)

Lemma fold_left_extend {A} (f : A -> list string) (l : list A)
    (acc : list string) :
  fold_left (fun out x => out ++ f x) l acc = acc ++ List.concat (map f l).
Proof.
  revert acc. induction l as [ | x l IH ]; intros acc; cbn.
  - by rewrite app_nil_r.
  - by rewrite IH, <- app_assoc.
Qed.

Lemma collect_list (items : list json) :
  collect (JList items) = List.concat (map collect items).
Proof. cbn [collect]. by rewrite fold_left_extend. Qed.

Lemma collect_dict (fields : list (string * json)) :
  collect (JDict fields) = List.concat (map collect (map snd fields)).
Proof.
  cbn [collect].
  by rewrite (fold_left_extend (fun kv => collect (snd kv))), map_map.
Qed.

Lemma banned_loop_acc (ws : list string) (s low : string)
    (phrases : list string) :
  banned_loop ws s low phrases = ws ++ banned_loop [] s low phrases.
Proof.
  induction phrases as [ | p rest IH ]; cbn.
  - by rewrite app_nil_r.
  - by destruct (contains p low).
Qed.

Lemma sentence_loop_acc (ws : list string) (sents : list string) :
  sentence_loop ws sents = ws ++ sentence_loop [] sents.
Proof.
  induction sents as [ | sent rest IH ]; cbn [sentence_loop].
  - by rewrite app_nil_r.
  - destruct (truthy (strip sent)); cbn [negb]; [ | done ].
    by destruct (25 <? length (str_split (strip sent))).
Qed.

Lemma scan_string_acc (ws : list string) (s : string) :
  scan_string ws s = ws ++ banned_warnings s ++ long_warnings s.
Proof.
  unfold scan_string, banned_warnings, long_warnings.
  by rewrite sentence_loop_acc, banned_loop_acc, <- app_assoc.
Qed.

Lemma scan_fold (strings ws : list string) :
  fold_left scan_string strings ws
  = ws ++ List.concat
            (map (fun s => banned_warnings s ++ long_warnings s) strings).
Proof.
  revert ws. induction strings as [ | s strings IH ]; intros ws; cbn.
  - by rewrite app_nil_r.
  - by rewrite IH, scan_string_acc, <- !app_assoc.
Qed.

Lemma scan_strings (topic : json) :
  safety_scan_topic topic
  = List.concat
      (map (fun s => banned_warnings s ++ long_warnings s) (collect topic)).
Proof. unfold safety_scan_topic. by rewrite scan_fold. Qed.

Lemma banned_loop_find (s low : string) (phrases : list string) :
  banned_loop [] s low phrases
  = match find (fun phrase => contains phrase low) phrases with
    | Some phrase => [banned_msg phrase s]
    | None => []
    end.
Proof.
  induction phrases as [ | p rest IH ]; cbn; [ done | ].
  by destruct (contains p low).
Qed.

Lemma sentences_cons (sent : string) (rest : list string) :
  filter (fun x => truthy x = true) (strip <$> sent :: rest)
  = if truthy (strip sent)
    then strip sent :: filter (fun x => truthy x = true) (strip <$> rest)
    else filter (fun x => truthy x = true) (strip <$> rest).
Proof.
  rewrite fmap_cons, filter_cons.
  destruct (truthy (strip sent)) eqn:E; case_decide; congruence.
Qed.

Lemma sentence_loop_find (sents : list string) :
  sentence_loop [] sents
  = match find (fun sent => 25 <? word_count sent)
            (filter (fun x => truthy x = true) (strip <$> sents)) with
    | Some sent => [long_msg (word_count sent) sent]
    | None => []
    end.
Proof.
  induction sents as [ | sent rest IH ]; [ done | ].
  rewrite sentences_cons. cbn [sentence_loop].
  destruct (truthy (strip sent)); cbn [negb find]; [ | exact IH ].
  unfold word_count at 1.
  by destruct (25 <? length (str_split (strip sent))).
Qed.

Lemma find_split {A} (f : A -> bool) (l : list A) (x : A) :
  find f l = Some x ->
  exists before after,
    l = before ++ x :: after /\ Forall (fun y => f y = false) before
    /\ f x = true.
Proof.
  induction l as [ | y l IH ]; cbn; [ done | ].
  destruct (f y) eqn:E.
  - intros [= ->]. exists [], l. split; [ done | ]. split; [ constructor | done ].
  - intros (before & after & -> & Hb & Hx)%IH.
    exists (y :: before), after. split; [ done | ].
    split; [ by constructor | done ].
Qed.

Lemma find_none_forall {A} (f : A -> bool) (l : list A) :
  find f l = None <-> Forall (fun y => f y = false) l.
Proof.
  induction l as [ | y l IH ]; cbn.
  - split; [ constructor | done ].
  - destruct (f y) eqn:E.
    + split; [ done | ]. intros H. inversion H; congruence.
    + rewrite IH. split; [ by constructor | ]. intros H. by inversion H.
Qed.

Lemma occurrences_app (x : string) (a b : list string) :
  occurrences x (a ++ b) = occurrences x a + occurrences x b.
Proof. unfold occurrences. by rewrite filter_app, length_app. Qed.

Lemma occurrences_collect (x : string) (v : json) :
  occurrences x (collect v) = leaf_count x v.
Proof.
  induction v as [ | b | z | q | s | items IH | fields IH ] using json_ind';
    try done.
  - cbn [collect leaf_count]. unfold occurrences. rewrite filter_cons, filter_nil.
    destruct (String.eqb s x); case_decide; done.
  - rewrite collect_list. cbn [leaf_count].
    induction IH as [ | item items Hitem _ IHitems ]; [ done | ].
    cbn [map List.concat foldr]. by rewrite occurrences_app, Hitem, IHitems.
  - rewrite collect_dict. cbn [leaf_count].
    induction IH as [ | [k vv] fields Hvv _ IHfields ]; [ done | ].
    cbn [map List.concat foldr snd] in *.
    by rewrite occurrences_app, Hvv, IHfields.
Qed.

(** ** The string methods *)

Lemma isspace_not_terminal (c : ascii) :
  isspace c = true -> is_terminal c = false.
Proof. destruct c as [[] [] [] [] [] [] [] []]; vm_compute; congruence. Qed.

Lemma isspace_lower_char (c : ascii) : isspace (lower_char c) = isspace c.
Proof. by destruct c as [[] [] [] [] [] [] [] []]; vm_compute. Qed.

Lemma all_space_lower (s : string) : all_space (lower s) = all_space s.
Proof.
  induction s as [ | c s IH ]; cbn; [ done | ].
  by rewrite isspace_lower_char, IH.
Qed.

Lemma all_space_append (a b : string) :
  all_space (a +:+ b) = all_space a && all_space b.
Proof.
  induction a as [ | c a IH ]; app_simpl; cbn; [ done | ].
  by rewrite IH, andb_assoc.
Qed.

Lemma all_space_contains (p s : string) :
  all_space s = true -> contains p s = true -> all_space p = true.
Proof.
  intros Hs (a & b & ->)%contains_spec.
  rewrite !all_space_append, !andb_true_iff in Hs. tauto.
Qed.

Lemma all_space_lstrip (s : string) :
  all_space s = true -> lstrip s = EmptyString.
Proof.
  induction s as [ | c s IH ]; cbn; [ done | ].
  intros [Hc Hs]%andb_true_iff. rewrite Hc. auto.
Qed.

Lemma all_space_strip (s : string) :
  all_space s = true -> strip s = EmptyString.
Proof. intros Hs. unfold strip. by rewrite all_space_lstrip. Qed.

Lemma all_space_re_split (s : string) :
  all_space s = true -> re_split s = [s].
Proof.
  induction s as [ | c s IH ]; cbn; [ done | ].
  intros [Hc Hs]%andb_true_iff.
  by rewrite (isspace_not_terminal c Hc), (IH Hs).
Qed.

(** [re.split] cuts at the terminal characters and nowhere else: the pieces
    hold none, and put back around the characters cut out they give [s]. *)
Lemma re_split_spec (s : string) :
  exists seps,
    length (re_split s) = S (length seps)
    /\ Forall (fun c => is_terminal c = true) seps
    /\ Forall (fun seg => has_char is_terminal seg = false) (re_split s)
    /\ interleave (re_split s) seps = s.
Proof.
  induction s as [ | c s (seps & Hlen & Hseps & Hsegs & Hs) ].
  - exists []. cbn. repeat split; repeat constructor.
  - cbn [re_split]. destruct (is_terminal c) eqn:Hc.
    + exists (c :: seps). cbn [length interleave]. rewrite Hlen, Hs.
      repeat split; by constructor.
    + destruct (re_split s) as [ | seg segs ]; [ done | ].
      exists seps. inversion Hsegs as [ | ? ? Hseg Hsegs' ]; subst.
      repeat split; [ done | done | | ].
      * constructor; [ cbn; by rewrite Hc, Hseg | done ].
      * destruct segs, seps; cbn in *; app_simpl; try done; by rewrite Hs.
Qed.

(** [split] counts the places where a word begins. *)
Lemma str_split_head (c : ascii) (s : string) :
  isspace c = false ->
  exists w ws, str_split (String c s) = String c w :: ws.
Proof.
  intros Hc. cbn [str_split]. rewrite Hc.
  destruct s as [ | c' s ]; [ by eexists _, _ | ].
  destruct (isspace c'); [ by eexists _, _ | ].
  destruct (str_split (String c' s)); by eexists _, _.
Qed.

Lemma word_count_starts (s : string) :
  length (str_split s) = word_starts true s.
Proof.
  induction s as [ | c s IH ]; [ done | ].
  cbn [str_split word_starts]. destruct (isspace c) eqn:Hc; cbn [andb negb].
  - by rewrite IH.
  - destruct s as [ | c' s ]; [ done | ].
    cbn [word_starts] in *. destruct (isspace c') eqn:Hc'; cbn [andb negb] in *.
    + cbn [length]. by rewrite IH.
    + destruct (str_split_head c' s Hc') as (w & ws & Hw).
      rewrite Hw in *. cbn [length] in *. lia.
Qed.

Lemma str_split_words (s : string) :
  Forall (fun w => w <> EmptyString /\ has_char isspace w = false)
    (str_split s).
Proof.
  induction s as [ | c s IH ]; [ constructor | ].
  cbn [str_split]. destruct (isspace c) eqn:Hc; [ done | ].
  destruct s as [ | c' s ].
  - constructor; [ | constructor ]. cbn. by rewrite Hc.
  - destruct (isspace c') eqn:Hc'.
    + constructor; [ | done ]. cbn. by rewrite Hc.
    + destruct (str_split (String c' s)) as [ | w ws ].
      * constructor; [ | constructor ]. cbn. by rewrite Hc.
      * inversion IH as [ | ? ? [_ Hw] Hws ]; subst.
        constructor; [ | done ]. cbn. by rewrite Hc, Hw.
Qed.

Lemma lstrip_spec (s : string) :
  exists pre,
    s = pre +:+ lstrip s
    /\ all_space pre = true
    /\ match lstrip s with
       | String c _ => isspace c = false
       | EmptyString => True
       end.
Proof.
  induction s as [ | c s (pre & Hs & Hpre & Hhead) ].
  - by exists EmptyString.
  - cbn [lstrip]. destruct (isspace c) eqn:Hc.
    + exists (String c pre). app_simpl. rewrite <- Hs. cbn. by rewrite Hc, Hpre.
    + by exists EmptyString.
Qed.

Lemma rstrip_spec (s : string) :
  exists post,
    s = rstrip s +:+ post
    /\ all_space post = true
    /\ (rstrip s = EmptyString
        \/ exists body c,
             rstrip s = body +:+ String c EmptyString /\ isspace c = false).
Proof.
  induction s as [ | c s (post & Hs & Hpost & Hlast) ].
  - exists EmptyString. split; [ done | ]. split; [ done | by left ].
  - cbn [rstrip]. destruct (rstrip s) as [ | a r ] eqn:Hr.
    + app_simpl. subst post. destruct (isspace c) eqn:Hc.
      * exists (String c s). split; [ done | ]. cbn. rewrite Hc, Hpost.
        split; [ done | by left ].
      * exists s. split; [ done | ]. split; [ done | ]. right.
        by exists EmptyString, c.
    + exists post. app_simpl. rewrite <- Hs. split; [ done | ].
      split; [ done | ]. right.
      destruct Hlast as [ | (body & c0 & Hbody & Hc0) ]; [ done | ].
      exists (String c body), c0. app_simpl. by rewrite <- Hbody.
Qed.

Lemma rstrip_head (c : ascii) (s : string) :
  isspace c = false -> exists r, rstrip (String c s) = String c r.
Proof.
  intros Hc. cbn [rstrip]. rewrite Hc.
  destruct (rstrip s); by eexists.
Qed.

(** [strip] cuts whitespace off both ends, and all of it. *)
Lemma strip_spec (s : string) :
  exists pre post,
    s = pre +:+ strip s +:+ post
    /\ all_space pre = true
    /\ all_space post = true
    /\ (strip s = EmptyString
        \/ (exists c r, strip s = String c r /\ isspace c = false)
           /\ (exists body c,
                 strip s = body +:+ String c EmptyString
                 /\ isspace c = false)).
Proof.
  destruct (lstrip_spec s) as (pre & Hs & Hpre & Hhead).
  destruct (rstrip_spec (lstrip s)) as (post & Hl & Hpost & Hlast).
  exists pre, post. unfold strip. rewrite <- Hl, <- Hs.
  split; [ done | ]. split; [ done | ]. split; [ done | ].
  destruct Hlast as [ Hempty | Hlast ]; [ by left | right ].
  split; [ | done ].
  destruct (lstrip s) as [ | c r ].
  { by destruct Hlast as ([ | ? ? ] & ? & ? & ?). }
  destruct (rstrip_head c r Hhead) as [r' Hr']. by exists c, r'.
Qed.

(** ** The extractor *)

Lemma concat_map_concat {A B} (f : A -> list B) (ls : list (list A)) :
  List.concat (map f (List.concat ls))
  = List.concat (map (fun l => List.concat (map f l)) ls).
Proof.
  induction ls as [ | l ls IH ]; cbn [List.concat map]; [ done | ].
  by rewrite map_app, concat_app, IH.
Qed.

(** C2: [collect] returns the string leaves of the tree, each as often as it
    is a leaf, depth first: a string gives itself alone, a list the results
    of its items in order, a dict the results of its values in the order
    of its items whatever the keys, any other value nothing. *)
Theorem C2_collect_string_leaves :
  (forall s, collect (JStr s) = [s])
  /\ (forall items,
        collect (JList items) = List.concat (map collect items))
  /\ (forall fields,
        collect (JDict fields) = List.concat (map collect (map snd fields)))
  /\ collect JNull = []
  /\ (forall b, collect (JBool b) = [])
  /\ (forall z, collect (JInt z) = [])
  /\ (forall q, collect (JFloat q) = [])
  /\ (forall x v, occurrences x (collect v) = leaf_count x v).
Proof.
  repeat split; try done.
  - apply collect_list.
  - apply collect_dict.
  - apply occurrences_collect.
Qed.

(** ** The banned-phrase check *)

(** C1, as the code has it: the phrases are looked for in [s.lower()], the
    string lowercased and nothing else (no whitespace is collapsed or cut
    off); the first phrase of the table found there is reported, with the
    first 140 characters of the string as it was. *)
Theorem C1_banned_check_on_lowercase (s : string) :
  banned_warnings s
  = match find (fun phrase => contains phrase (lower s)) BANNED_PHRASES with
    | Some phrase =>
        [ "Banned phrase " +:+ dquote +:+ phrase +:+ dquote
          +:+ " found in: " +:+ slice_to 140 s +:+ "..." ]
    | None => []
    end
  /\ (forall phrase,
        contains phrase (lower s) = true
        <-> exists a b, lower s = a +:+ phrase +:+ b)
  /\ (forall ws, scan_string ws s = ws ++ banned_warnings s ++ long_warnings s).
Proof.
  split; [ apply banned_loop_find | ].
  split; [ intros phrase; apply contains_spec | ].
  intros ws. apply scan_string_acc.
Qed.

(** C1 as written fails: two spaces hide a phrase that the normalized form
    holds, and a space at the end shows one that the normalized form lost. *)
Lemma C1_normalized_form_not_used :
  contains "most likely" (normalize_text "most  likely") = true
  /\ safety_scan_topic (JStr "most  likely") = []
  /\ existsb (fun phrase => contains phrase (normalize_text "intake "))
       BANNED_PHRASES = false
  /\ safety_scan_topic (JStr "intake ")
     = [ "Banned phrase " +:+ dquote +:+ "take " +:+ dquote
         +:+ " found in: intake ..." ].
Proof. by vm_compute. Qed.

(** C3, as the code has it: when the lowercased string holds an entry of the
    table, the string gets one banned-phrase warning, for the first entry
    of the table that it holds; the entries after it are not tried. *)
Theorem C3_first_phrase_only (s phrase : string) :
  In phrase BANNED_PHRASES ->
  contains phrase (lower s) = true ->
  exists before first after,
    BANNED_PHRASES = before ++ first :: after
    /\ Forall (fun p => contains p (lower s) = false) before
    /\ contains first (lower s) = true
    /\ banned_warnings s = [banned_msg first s]
    /\ (forall ws,
          scan_string ws s = ws ++ [banned_msg first s] ++ long_warnings s).
Proof.
  intros Hin Hphrase.
  destruct (find (fun p => contains p (lower s)) BANNED_PHRASES)
    as [first | ] eqn:Hfind.
  - destruct (find_split _ _ _ Hfind) as (before & after & Htab & Hb & Hf).
    assert (Hw : banned_warnings s = [banned_msg first s]).
    { unfold banned_warnings. by rewrite banned_loop_find, Hfind. }
    exists before, first, after. repeat split; try done.
    intros ws. by rewrite scan_string_acc, Hw.
  - apply find_none_forall in Hfind.
    rewrite Forall_forall in Hfind.
    apply list_elem_of_In in Hin. specialize (Hfind _ Hin). congruence.
Qed.

Lemma C3_first_phrase_only_witness :
  In "dose" BANNED_PHRASES
  /\ contains "dose" (lower "You should take a dose") = true
  /\ exists before first after,
       BANNED_PHRASES = before ++ first :: after
       /\ Forall (fun p => contains p (lower "You should take a dose") = false)
            before
       /\ contains first (lower "You should take a dose") = true
       /\ banned_warnings "You should take a dose"
          = [banned_msg first "You should take a dose"]
       /\ (forall ws,
             scan_string ws "You should take a dose"
             = ws ++ [banned_msg first "You should take a dose"]
                  ++ long_warnings "You should take a dose").
Proof.
  split; [ cbn; tauto | ]. split; [ reflexivity | ].
  apply (C3_first_phrase_only "You should take a dose" "dose");
    [ cbn; tauto | reflexivity ].
Defined.

(** C3 as written fails: the normalized form holds an entry and the string
    gets no warning, or gets the warning of a later entry. *)
Lemma C3_normalized_match_not_reported :
  existsb (fun phrase => contains phrase (normalize_text "most  likely"))
    BANNED_PHRASES = true
  /\ banned_warnings "most  likely" = []
  /\ find (fun phrase => contains phrase (normalize_text "most  likely dose"))
       BANNED_PHRASES = Some "most likely"
  /\ banned_warnings "most  likely dose"
     = [banned_msg "dose" "most  likely dose"].
Proof. by vm_compute. Qed.

(** ** The long-sentence check *)

Lemma long_warnings_find (s : string) :
  long_warnings s
  = match find (fun sent => 25 <? word_count sent) (sentences s) with
    | Some sent => [long_msg (word_count sent) sent]
    | None => []
    end.
Proof. apply sentence_loop_find. Qed.

(** C4: the string as it is (not lowercased) is cut at [.], [!] and [?];
    the pieces are stripped and the empty ones dropped; the words of a piece
    are its runs of non-whitespace.  When no piece has more than 25 words
    there is no long-sentence warning; otherwise there is one, for the first
    piece with more than 25 words, with its number of words. *)
Theorem C4_long_sentence_check (s : string) :
  sentences s
  = filter (fun sent => truthy sent = true) (strip <$> re_split s)
  /\ (exists seps,
        length (re_split s) = S (length seps)
        /\ Forall (fun c => is_terminal c = true) seps
        /\ Forall (fun seg => has_char is_terminal seg = false) (re_split s)
        /\ interleave (re_split s) seps = s)
  /\ (forall sent,
        word_count sent = word_starts true sent
        /\ Forall (fun w => w <> EmptyString /\ has_char isspace w = false)
             (str_split sent))
  /\ ((Forall (fun sent => word_count sent <= 25) (sentences s)
       /\ long_warnings s = [])
      \/ (exists before sent after,
            sentences s = before ++ sent :: after
            /\ Forall (fun x => word_count x <= 25) before
            /\ 25 < word_count sent
            /\ long_warnings s
               = [ "Long sentence (" +:+ str_of_nat (word_count sent)
                   +:+ " words): " +:+ slice_to 140 sent +:+ "..." ]))
  /\ (forall ws, scan_string ws s = ws ++ banned_warnings s ++ long_warnings s).
Proof.
  split; [ done | ]. split; [ apply re_split_spec | ].
  split; [ intros sent; split;
           [ apply word_count_starts | apply str_split_words ] | ].
  split; [ | intros ws; apply scan_string_acc ].
  rewrite long_warnings_find.
  destruct (find (fun sent => 25 <? word_count sent) (sentences s))
    as [sent | ] eqn:Hfind.
  - right. destruct (find_split _ _ _ Hfind) as (before & after & Hs & Hb & Hw).
    exists before, sent, after. repeat split; try done.
    + eapply Forall_impl; [ exact Hb | ]. intros x Hx.
      apply Nat.ltb_ge in Hx. lia.
    + by apply Nat.ltb_lt in Hw.
  - left. split; [ | done ]. apply find_none_forall in Hfind.
    eapply Forall_impl; [ exact Hfind | ]. intros x Hx.
    apply Nat.ltb_ge in Hx. lia.
Qed.

(** The boundary: 25 words give no warning, 26 words give one. *)
Example long_sentence_25_words :
  word_count "a b c d e f g h i j k l m n o p q r s t u v w x y" = 25
  /\ safety_scan_topic
       (JStr "a b c d e f g h i j k l m n o p q r s t u v w x y.") = [].
Proof. by vm_compute. Qed.

Example long_sentence_26_words :
  word_count "a b c d e f g h i j k l m n o p q r s t u v w x y z" = 26
  /\ safety_scan_topic
       (JStr "Ok. a b c d e f g h i j k l m n o p q r s t u v w x y z! No")
     = [ "Long sentence (26 words): "
         +:+ "a b c d e f g h i j k l m n o p q r s t u v w x y z..." ].
Proof. by vm_compute. Qed.

(** ** The excerpt *)

Lemma in_sentences (s sent : string) :
  In sent (sentences s) -> exists seg, In seg (re_split s) /\ sent = strip seg.
Proof.
  unfold sentences. rewrite <- list_elem_of_In, list_elem_of_filter.
  intros [_ (seg & -> & Hseg)%list_elem_of_fmap].
  exists seg. by rewrite <- list_elem_of_In.
Qed.

(** C5: every warning ends with the first 140 characters of its text (the
    string for a banned phrase, the stripped piece for a long sentence) and
    then three dots, whatever the length of the text. *)
Theorem C5_excerpt_and_marker (topic : json) (w : string) :
  In w (safety_scan_topic topic) ->
  exists head text,
    w = head +:+ slice_to 140 text +:+ "..."
    /\ String.length (slice_to 140 text) = 140 `min` String.length text
    /\ (exists rest, text = slice_to 140 text +:+ rest)
    /\ exists s,
         In s (collect topic)
         /\ ((exists phrase,
                In phrase BANNED_PHRASES /\ text = s
                /\ head = "Banned phrase " +:+ dquote +:+ phrase +:+ dquote
                          +:+ " found in: ")
             \/ (exists seg,
                   In seg (re_split s) /\ text = strip seg
                   /\ head = "Long sentence ("
                             +:+ str_of_nat (word_count (strip seg))
                             +:+ " words): ")).
Proof.
  rewrite scan_strings, in_concat.
  intros (ws & (s & <- & Hs)%in_map_iff & [Hw | Hw]%in_app_iff).
  - unfold banned_warnings in Hw. rewrite banned_loop_find in Hw.
    destruct (find _ BANNED_PHRASES) as [phrase | ] eqn:Hfind; [ | done ].
    destruct Hw as [<- | []]. apply find_some in Hfind as [Hin _].
    eexists _, s. split; [ | split; [ apply slice_to_length | ] ].
    + unfold banned_msg. by rewrite <- !append_assoc.
    + split; [ apply slice_to_prefix | ]. exists s. split; [ done | ].
      left. exists phrase. by rewrite !append_assoc.
  - rewrite long_warnings_find in Hw.
    destruct (find _ (sentences s)) as [sent | ] eqn:Hfind; [ | done ].
    destruct Hw as [<- | []]. apply find_some in Hfind as [Hin _].
    apply in_sentences in Hin as (seg & Hseg & ->).
    eexists _, (strip seg). split; [ | split; [ apply slice_to_length | ] ].
    + unfold long_msg. by rewrite <- !append_assoc.
    + split; [ apply slice_to_prefix | ]. exists s. split; [ done | ].
      right. exists seg. by rewrite !append_assoc.
Qed.

Lemma C5_excerpt_and_marker_witness :
  In ("Banned phrase " +:+ dquote +:+ "dose" +:+ dquote
      +:+ " found in: dose...")
     (safety_scan_topic (JStr "dose"))
  /\ exists head text,
       "Banned phrase " +:+ dquote +:+ "dose" +:+ dquote
       +:+ " found in: dose..."
       = head +:+ slice_to 140 text +:+ "..."
       /\ String.length (slice_to 140 text) = 140 `min` String.length text
       /\ (exists rest, text = slice_to 140 text +:+ rest)
       /\ exists s,
            In s (collect (JStr "dose"))
            /\ ((exists phrase,
                   In phrase BANNED_PHRASES /\ text = s
                   /\ head = "Banned phrase " +:+ dquote +:+ phrase
                             +:+ dquote +:+ " found in: ")
                \/ (exists seg,
                      In seg (re_split s) /\ text = strip seg
                      /\ head = "Long sentence ("
                                +:+ str_of_nat (word_count (strip seg))
                                +:+ " words): ")).
Proof.
  split; [ left; reflexivity | ].
  apply (C5_excerpt_and_marker (JStr "dose")). left; reflexivity.
Defined.

(** The marker follows a text shorter than 140 characters too. *)
Example excerpt_of_short_text :
  slice_to 140 "short" +:+ "..." = "short..."
  /\ safety_scan_topic (JStr "dose")
     = [ "Banned phrase " +:+ dquote +:+ "dose" +:+ dquote
         +:+ " found in: dose..." ].
Proof. by vm_compute. Qed.

(** ** The order of the warnings *)

(** C6: the warnings come string by string in the order of [collect], and
    for one string the banned-phrase warning (none or one) stands before
    the long-sentence warning (none or one). *)
Theorem C6_discovery_order (topic : json) :
  safety_scan_topic topic
  = List.concat
      (map (fun s => banned_warnings s ++ long_warnings s) (collect topic))
  /\ (forall s,
        banned_warnings s = []
        \/ exists phrase,
             banned_warnings s
             = [ "Banned phrase " +:+ dquote +:+ phrase +:+ dquote
                 +:+ " found in: " +:+ slice_to 140 s +:+ "..." ])
  /\ (forall s,
        long_warnings s = []
        \/ exists wc sent,
             long_warnings s
             = [ "Long sentence (" +:+ str_of_nat wc +:+ " words): "
                 +:+ slice_to 140 sent +:+ "..." ]).
Proof.
  split; [ apply scan_strings | ]. split; intros s.
  - unfold banned_warnings. rewrite banned_loop_find.
    destruct (find _ BANNED_PHRASES) as [phrase | ]; [ right | by left ].
    by exists phrase.
  - rewrite long_warnings_find.
    destruct (find _ (sentences s)) as [sent | ]; [ right | by left ].
    by exists (word_count sent), sent.
Qed.

(** ** The root of the scan *)

(** C9: the scan takes any value as its root.  A string is scanned as the
    one string it is, a list or a dict gives the warnings of its items or
    values in order, and a number, a boolean or null gives no warning. *)
Theorem C9_scan_of_any_root :
  (forall s, safety_scan_topic (JStr s) = banned_warnings s ++ long_warnings s)
  /\ (forall items,
        safety_scan_topic (JList items)
        = List.concat (map safety_scan_topic items))
  /\ (forall fields,
        safety_scan_topic (JDict fields)
        = List.concat (map safety_scan_topic (map snd fields)))
  /\ safety_scan_topic JNull = []
  /\ (forall b, safety_scan_topic (JBool b) = [])
  /\ (forall z, safety_scan_topic (JInt z) = [])
  /\ (forall q, safety_scan_topic (JFloat q) = []).
Proof.
  repeat split; try done.
  - intros s. rewrite scan_strings. cbn. by rewrite app_nil_r.
  - intros items. rewrite scan_strings, collect_list, concat_map_concat.
    f_equal. rewrite map_map. apply map_ext. intros item.
    by rewrite scan_strings.
  - intros fields. rewrite scan_strings, collect_dict, concat_map_concat.
    f_equal. rewrite !map_map. apply map_ext. intros kv.
    by rewrite scan_strings.
Qed.

(** ** Blank strings *)

Lemma banned_phrases_not_blank :
  Forall (fun phrase => all_space phrase = false) BANNED_PHRASES.
Proof. repeat constructor. Qed.

(** C10: a string of whitespace only, the empty string too, adds no
    warning: its lowercased form holds no entry of the table, and it is one
    piece that stripping leaves empty. *)
Theorem C10_blank_string_no_warning (s : string) :
  all_space s = true ->
  Forall (fun phrase => contains phrase (lower s) = false) BANNED_PHRASES
  /\ sentences s = []
  /\ banned_warnings s = []
  /\ long_warnings s = []
  /\ (forall ws, scan_string ws s = ws)
  /\ safety_scan_topic (JStr s) = [].
Proof.
  intros Hs.
  assert (Hb : Forall (fun phrase => contains phrase (lower s) = false)
                 BANNED_PHRASES).
  { eapply Forall_impl; [ apply banned_phrases_not_blank | ].
    intros phrase Hphrase. cbn beta in *.
    destruct (contains phrase (lower s)) eqn:Hc; [ | done ].
    apply all_space_contains in Hc; [ congruence | ].
    by rewrite all_space_lower. }
  assert (Hsents : sentences s = []).
  { unfold sentences. rewrite (all_space_re_split s Hs). cbn [fmap list_fmap].
    rewrite filter_cons, (all_space_strip s Hs). by case_decide. }
  assert (Hbw : banned_warnings s = []).
  { unfold banned_warnings. rewrite banned_loop_find.
    apply find_none_forall in Hb. by rewrite Hb. }
  assert (Hlw : long_warnings s = []).
  { by rewrite long_warnings_find, Hsents. }
  split; [ exact Hb | ]. split; [ exact Hsents | ].
  split; [ exact Hbw | ]. split; [ exact Hlw | ]. split.
  - intros ws. by rewrite scan_string_acc, Hbw, Hlw, app_nil_r.
  - rewrite scan_strings. cbn [collect map List.concat].
    by rewrite Hbw, Hlw.
Qed.

Lemma C10_blank_string_no_warning_witness :
  all_space (String " " (String (ascii_of_nat 9) (String (ascii_of_nat 10)
               EmptyString))) = true
  /\ safety_scan_topic
       (JStr (String " " (String (ascii_of_nat 9) (String (ascii_of_nat 10)
                EmptyString)))) = [].
Proof.
  split; [ reflexivity | ].
  apply (C10_blank_string_no_warning
           (String " " (String (ascii_of_nat 9) (String (ascii_of_nat 10)
              EmptyString)))).
  reflexivity.
Defined.

(** ** The scan on the object store *)

Lemma bind_done {A B} (m : Store.store -> Store.outcome A)
    (k : A -> Store.store -> Store.outcome B) (st st1 : Store.store) (a : A) :
  m st = Store.Done a st1 -> Store.bind m k st = k a st1.
Proof. intros H. unfold Store.bind. by rewrite H. Qed.

Lemma new_list_done (items : list Store.pyval) (st : Store.store) :
  exists l,
    Store.new_list items st = Store.Done l (<[l := Store.OList items]> st)
    /\ st !! l = None.
Proof.
  exists (fresh (dom st)). split; [ done | ].
  apply not_elem_of_dom, is_fresh.
Qed.

Lemma extend_done (out src : Store.loc) (xs ys : list Store.pyval)
    (st : Store.store) :
  st !! out = Some (Store.OList xs) ->
  st !! src = Some (Store.OList ys) ->
  Store.extend out src st
  = Store.Done tt (<[out := Store.OList (xs ++ ys)]> st).
Proof. intros Hout Hsrc. unfold Store.extend. by rewrite Hout, Hsrc. Qed.

Lemma append_done (out : Store.loc) (x : Store.pyval)
    (xs : list Store.pyval) (st : Store.store) :
  st !! out = Some (Store.OList xs) ->
  Store.append out x st
  = Store.Done tt (<[out := Store.OList (xs ++ [x])]> st).
Proof. intros Hout. unfold Store.append. by rewrite Hout. Qed.

Lemma item_at_children (o : Store.pyobj) (i : nat) :
  Store.item_at o i = Store.children o !! i.
Proof. destruct o; cbn; [ done | by rewrite list_lookup_fmap ]. Qed.

Lemma Forall2_Forall_r {A B} (P Q : A -> B -> Prop) (xs : list A)
    (ys : list B) :
  Forall (fun y => forall x, P x y -> Q x y) ys ->
  Forall2 P xs ys -> Forall2 Q xs ys.
Proof.
  intros Hall H. induction H as [ | x y xs ys Hxy _ IH ]; [ constructor | ].
  inversion Hall; subst. constructor; auto.
Qed.

(** A store that keeps every object of [st] holds the trees [st] holds. *)
Lemma repr_weaken (st st' : Store.store) (v : Store.pyval) (t : json) :
  st ⊆ st' -> Store.repr st v t -> Store.repr st' v t.
Proof.
  intros Hsub. revert v.
  induction t as [ | b | z | q | s | items IH | fields IH ] using json_ind';
    intros v Hv; inversion Hv; subst; try (by constructor).
  - eapply Store.repr_list; [ by eapply lookup_weaken | ].
    by eapply Forall2_Forall_r; [ exact IH | ].
  - eapply Store.repr_dict; [ by eapply lookup_weaken | ].
    eapply Forall2_Forall_r; [ | eassumption ].
    eapply Forall_impl; [ exact IH | ].
    intros tf Htf vf [Hk Hvf]. split; [ done | by apply Htf ].
Qed.

Lemma repr_weaken_all (st st' : Store.store) (vs : list Store.pyval)
    (ts : list json) :
  st ⊆ st' -> Forall2 (Store.repr st) vs ts -> Forall2 (Store.repr st') vs ts.
Proof.
  intros Hsub H. eapply Forall2_impl; [ exact H | ].
  intros v t. by apply repr_weaken.
Qed.

(** The loop of [collect] from position [i] on, given that [collect] does
    well on the trees still to come. *)
Lemma collect_loop_refines (ts : list json) :
  Forall (fun t => exists n, forall fuel st v,
            n <= fuel -> Store.repr st v t ->
            collect_returns fuel st v (collect t)) ts ->
  exists n, forall fuel st0 st l o i out acc,
    n <= fuel ->
    st0 ⊆ st ->
    st0 !! l = Some o ->
    st0 !! out = None ->
    st !! out = Some (Store.OList acc) ->
    Forall2 (Store.repr st0) (drop i (Store.children o)) ts ->
    exists st',
      Store.collect_loop fuel l i out st = Store.Done tt st'
      /\ st0 ⊆ st'
      /\ st' !! out
         = Some (Store.OList
                   (acc ++ (Store.VStr <$> List.concat (map collect ts)))).
Proof.
  induction 1 as [ | t ts (n1 & Ht) _ (n2 & IH) ].
  - exists 1. intros fuel st0 st l o i out acc Hfuel Hsub Hl Hout0 Hout Hrep.
    destruct fuel as [ | fuel ]; [ lia | ]. cbn [Store.collect_loop].
    rewrite (lookup_weaken _ _ _ _ Hl Hsub), item_at_children.
    assert (Hi : Store.children o !! i = None).
    { rewrite <- (Nat.add_0_r i), <- lookup_drop.
      by apply Forall2_nil_inv_r in Hrep as ->. }
    rewrite Hi. exists st. cbn. by rewrite app_nil_r.
  - exists (S (n1 `max` n2)).
    intros fuel st0 st l o i out acc Hfuel Hsub Hl Hout0 Hout Hrep.
    destruct fuel as [ | fuel ]; [ lia | ]. cbn [Store.collect_loop].
    rewrite (lookup_weaken _ _ _ _ Hl Hsub), item_at_children.
    apply Forall2_cons_inv_r in Hrep as (v & rest & Hv & Hrest & Hdrop).
    assert (Hi : Store.children o !! i = Some v).
    { by rewrite <- (Nat.add_0_r i), <- lookup_drop, Hdrop. }
    rewrite Hi.
    destruct (Ht fuel st v) as (r & st1 & Hc & Hsub1 & Hr & Hr1);
      [ lia | by eapply repr_weaken | ].
    rewrite (bind_done _ _ _ _ _ Hc).
    assert (Hout1 : st1 !! out = Some (Store.OList acc))
      by (by eapply lookup_weaken).
    rewrite (bind_done _ _ _ _ _ (extend_done _ _ _ _ _ Hout1 Hr1)).
    destruct (IH fuel st0
                (<[out := Store.OList (acc ++ (Store.VStr <$> collect t))]> st1)
                l o (S i) out (acc ++ (Store.VStr <$> collect t)))
      as (st' & Hloop & Hsub' & Hout').
    + lia.
    + apply insert_subseteq_r; [ done | by etrans ].
    + done.
    + done.
    + apply lookup_insert_eq.
    + rewrite (drop_S _ _ _ Hi) in Hdrop. by injection Hdrop as ->.
    + exists st'. split; [ done | ]. split; [ done | ].
      rewrite Hout'. cbn [map List.concat].
      by rewrite fmap_app, app_assoc.
Qed.

Lemma collect_leaf_returns (fuel : nat) (st : Store.store)
    (items : list Store.pyval) (strings : list string) :
  items = Store.VStr <$> strings ->
  exists r st',
    Store.new_list items st = Store.Done r st'
    /\ st ⊆ st'
    /\ st !! r = None
    /\ st' !! r = Some (Store.OList (Store.VStr <$> strings)).
Proof.
  intros ->. destruct (new_list_done (Store.VStr <$> strings) st) as (r & Hr & Hnone).
  eexists r, _. split; [ exact Hr | ]. split; [ by apply insert_subseteq | ].
  split; [ done | apply lookup_insert_eq ].
Qed.

Lemma collect_node_returns (n fuel : nat) (st : Store.store) (l : Store.loc)
    (o : Store.pyobj) (ts : list json) :
  (forall fuel st0 st l o i out acc,
     n <= fuel -> st0 ⊆ st -> st0 !! l = Some o -> st0 !! out = None ->
     st !! out = Some (Store.OList acc) ->
     Forall2 (Store.repr st0) (drop i (Store.children o)) ts ->
     exists st',
       Store.collect_loop fuel l i out st = Store.Done tt st'
       /\ st0 ⊆ st'
       /\ st' !! out
          = Some (Store.OList
                    (acc ++ (Store.VStr <$> List.concat (map collect ts))))) ->
  S n <= fuel ->
  st !! l = Some o ->
  Forall2 (Store.repr st) (Store.children o) ts ->
  collect_returns fuel st (Store.VRef l) (List.concat (map collect ts)).
Proof.
  intros Hloop Hfuel Hl Hrep.
  destruct fuel as [ | fuel ]; [ lia | ].
  unfold collect_returns. cbn [Store.collect]. rewrite Hl.
  destruct (new_list_done [] st) as (out & Hnew & Hout).
  unfold Store.bind at 1. rewrite Hnew.
  destruct (Hloop fuel st (<[out := Store.OList []]> st) l o 0 out [])
    as (st' & Hrun & Hsub & Hout').
  - lia.
  - by apply insert_subseteq.
  - done.
  - done.
  - apply lookup_insert_eq.
  - done.
  - rewrite (bind_done _ _ _ _ _ Hrun). by exists out, st'.
Qed.

(** [collect] on the store does what [collect] on the tree says. *)
Lemma collect_refines (t : json) :
  exists n, forall fuel st v,
    n <= fuel -> Store.repr st v t -> collect_returns fuel st v (collect t).
Proof.
  induction t as [ | b | z | q | s | items IH | fields IH ] using json_ind'.
  1-5: exists 1; intros fuel st v Hfuel Hv;
       (destruct fuel as [ | fuel ]; [ lia | ]); inversion Hv; subst;
       by apply (collect_leaf_returns fuel).
  - destruct (collect_loop_refines items IH) as [n Hloop].
    exists (S n). intros fuel st v Hfuel Hv. inversion Hv; subst.
    rewrite collect_list. by eapply collect_node_returns.
  - assert (IH' : Forall (fun t => exists n, forall fuel st v,
                     n <= fuel -> Store.repr st v t ->
                     collect_returns fuel st v (collect t)) (map snd fields)).
    { change (map snd fields) with (snd <$> fields). by apply Forall_fmap. }
    destruct (collect_loop_refines _ IH') as [n Hloop].
    exists (S n). intros fuel st v Hfuel Hv. inversion Hv; subst.
    rewrite collect_dict. eapply collect_node_returns; [ done.. | ].
    cbn [Store.children]. change (map snd fields) with (snd <$> fields).
    apply Forall2_fmap.
    eapply Forall2_impl; [ eassumption | ]. by intros vf tf [_ Hvf].
Qed.

Lemma insert_same_list (w : Store.loc) (xs : list Store.pyval)
    (st : Store.store) :
  st !! w = Some (Store.OList xs) ->
  st = <[w := Store.OList (xs ++ (Store.VStr <$> []))]> st.
Proof. intros Hw. cbn. by rewrite app_nil_r, insert_id. Qed.

Lemma banned_loop_refines (w : Store.loc) (s low : string)
    (phrases : list string) (xs : list Store.pyval) (st : Store.store) :
  st !! w = Some (Store.OList xs) ->
  Store.banned_loop w s low phrases st
  = Store.Done tt
      (<[w := Store.OList
                (xs ++ (Store.VStr <$> banned_loop [] s low phrases))]> st).
Proof.
  intros Hw. induction phrases as [ | p rest IH ];
    cbn [Store.banned_loop banned_loop].
  - by rewrite <- insert_same_list.
  - destruct (contains p low); [ | done ]. by rewrite (append_done _ _ xs).
Qed.

Lemma sentence_loop_refines (w : Store.loc) (sents : list string)
    (xs : list Store.pyval) (st : Store.store) :
  st !! w = Some (Store.OList xs) ->
  Store.sentence_loop w sents st
  = Store.Done tt
      (<[w := Store.OList
                (xs ++ (Store.VStr <$> sentence_loop [] sents))]> st).
Proof.
  intros Hw. induction sents as [ | sent rest IH ];
    cbn [Store.sentence_loop sentence_loop].
  - by rewrite <- insert_same_list.
  - destruct (truthy (strip sent)); cbn [negb]; [ | done ].
    destruct (25 <? length (str_split (strip sent))); [ | done ].
    by rewrite (append_done _ _ xs).
Qed.

Lemma scan_string_refines (w : Store.loc) (s : string)
    (xs : list Store.pyval) (st : Store.store) :
  st !! w = Some (Store.OList xs) ->
  Store.scan_string w (Store.VStr s) st
  = Store.Done tt
      (<[w := Store.OList
                (xs ++ (Store.VStr <$> banned_warnings s ++ long_warnings s))]>
         st).
Proof.
  intros Hw. cbn [Store.scan_string].
  rewrite (bind_done _ _ _ _ _ (banned_loop_refines w s _ _ xs st Hw)).
  erewrite sentence_loop_refines; [ | apply lookup_insert_eq ].
  by rewrite insert_insert_eq, fmap_app, app_assoc.
Qed.

Lemma scan_loop_refines (ss : list string) :
  forall fuel st strings i w all xs,
    length ss < fuel ->
    st !! strings = Some (Store.OList all) ->
    drop i all = Store.VStr <$> ss ->
    strings <> w ->
    st !! w = Some (Store.OList xs) ->
    Store.scan_loop fuel strings i w st
    = Store.Done tt
        (<[w := Store.OList
                  (xs ++ (Store.VStr <$>
                            List.concat
                              (map (fun s => banned_warnings s ++ long_warnings s)
                                 ss)))]> st).
Proof.
  induction ss as [ | s ss IH ];
    intros fuel st strings i w all xs Hfuel Hstrings Hdrop Hne Hw;
    (destruct fuel as [ | fuel ]; [ cbn in Hfuel; lia | ]);
    cbn [Store.scan_loop]; rewrite Hstrings; cbn [Store.item_at].
  - assert (Hi : all !! i = None).
    { by rewrite <- (Nat.add_0_r i), <- lookup_drop, Hdrop. }
    rewrite Hi. by rewrite <- insert_same_list.
  - assert (Hi : all !! i = Some (Store.VStr s)).
    { by rewrite <- (Nat.add_0_r i), <- lookup_drop, Hdrop. }
    rewrite Hi, (bind_done _ _ _ _ _ (scan_string_refines w s xs st Hw)).
    erewrite (IH fuel _ strings (S i) w all).
    + rewrite insert_insert_eq. cbn [map List.concat].
      by rewrite fmap_app, app_assoc.
    + cbn in Hfuel. lia.
    + by rewrite lookup_insert_ne.
    + rewrite (drop_S _ _ _ Hi) in Hdrop. by injection Hdrop.
    + done.
    + apply lookup_insert_eq.
Qed.

Lemma read_strings_list (st : Store.store) (l : Store.loc)
    (strings : list string) :
  st !! l = Some (Store.OList (Store.VStr <$> strings)) ->
  Store.read_strings st l = Some strings.
Proof.
  intros Hl. unfold Store.read_strings. rewrite Hl.
  by apply mapM_fmap_Some.
Qed.

Lemma read_strings_weaken (st st' : Store.store) (l : Store.loc)
    (strings : list string) :
  st ⊆ st' ->
  Store.read_strings st l = Some strings ->
  Store.read_strings st' l = Some strings.
Proof.
  intros Hsub. unfold Store.read_strings.
  destruct (st !! l) as [o | ] eqn:Hl; [ | done ].
  by rewrite (lookup_weaken _ _ _ _ Hl Hsub).
Qed.

(** The scan on the store returns the warnings of the scan on the tree, in
    a new list object, and keeps every object of the store before. *)
Lemma safety_scan_topic_refines (t : json) :
  exists n, forall fuel st topic,
    n <= fuel -> Store.repr st topic t ->
    scan_returns fuel st topic (safety_scan_topic t).
Proof.
  destruct (collect_refines t) as [n Hcollect].
  exists (n `max` S (length (collect t))).
  intros fuel st topic Hfuel Hrep. unfold scan_returns, Store.safety_scan_topic.
  destruct (new_list_done [] st) as (w & Hnew & Hw).
  unfold Store.bind at 1. rewrite Hnew.
  destruct (Hcollect fuel (<[w := Store.OList []]> st) topic)
    as (r & st2 & Hc & Hsub & Hr & Hr2).
  { lia. }
  { eapply repr_weaken; [ | done ]. by apply insert_subseteq. }
  rewrite (bind_done _ _ _ _ _ Hc).
  assert (Hw2 : st2 !! w = Some (Store.OList [])).
  { eapply lookup_weaken; [ | done ]. apply lookup_insert_eq. }
  assert (Hne : r <> w).
  { intros ->. by rewrite lookup_insert_eq in Hr. }
  erewrite (bind_done _ _ _ _ _
              (scan_loop_refines (collect t) fuel st2 r 0 w _ [] _ Hr2 _ Hne Hw2)).
  eexists w, _. split; [ done | ]. split; [ | split; [ done | ] ].
  - apply insert_subseteq_r; [ done | ].
    etrans; [ by apply insert_subseteq | done ].
  - apply read_strings_list. rewrite lookup_insert_eq, scan_strings. done.
  Unshelve. { lia. } { done. }
Qed.

Lemma example_store_holds_tree :
  Store.repr example_store example_topic example_tree.
Proof.
  eapply Store.repr_dict; [ reflexivity | ].
  repeat constructor.
  eapply Store.repr_list; [ reflexivity | ].
  repeat constructor.
Defined.

(** ** Errors *)

Lemma depth_children_le {A} (f : A -> nat) (l : list A) (m : nat) :
  foldr (fun x d => f x `max` d) 0 l <= m <-> Forall (fun x => f x <= m) l.
Proof.
  induction l as [ | x l IH ]; cbn [foldr].
  - split; [ constructor | lia ].
  - rewrite Forall_cons, <- IH. lia.
Qed.

Lemma depth_children_gt {A} (f : A -> nat) (l : list A) (m : nat) :
  m < foldr (fun x d => f x `max` d) 0 l <-> Exists (fun x => m < f x) l.
Proof.
  induction l as [ | x l IH ]; cbn [foldr].
  - split; [ lia | by intros ?%Exists_nil ].
  - rewrite Exists_cons, <- IH. lia.
Qed.

Lemma limited_new_list (items : list Store.pyval) (st : Store.store) :
  exists l,
    Limited.new_list items st
    = Limited.Done l (<[l := Store.OList items]> st)
    /\ st !! l = None.
Proof.
  destruct (new_list_done items st) as (l & Hl & Hnone).
  exists l. unfold Limited.new_list. by rewrite Hl.
Qed.

Lemma limited_extend (out src : Store.loc) (xs ys : list Store.pyval)
    (st : Store.store) :
  st !! out = Some (Store.OList xs) ->
  st !! src = Some (Store.OList ys) ->
  Limited.extend out src st
  = Limited.Done tt (<[out := Store.OList (xs ++ ys)]> st).
Proof.
  intros Hout Hsrc. unfold Limited.extend.
  by rewrite (extend_done _ _ _ _ _ Hout Hsrc).
Qed.

Ltac limited_step H :=
  try unfold Limited.bind; rewrite H; cbv beta iota.

(** The loop of [Limited.collect] from position [i] on: with room for every
    tree still to come it goes as in [Store]; the first tree that is too
    deep raises. *)
Lemma limited_collect_loop (ts : list json) :
  Forall (fun t => exists n, limited_collect_spec n t) ts ->
  exists n, forall fuel limit st0 st l o i out acc,
    n <= fuel ->
    st0 ⊆ st ->
    st0 !! l = Some o ->
    st0 !! out = None ->
    st !! out = Some (Store.OList acc) ->
    Forall2 (Store.repr st0) (drop i (Store.children o)) ts ->
    (Forall (fun t => depth t <= limit) ts ->
     exists st',
       Limited.collect_loop fuel limit l i out st = Limited.Done tt st'
       /\ st0 ⊆ st'
       /\ st' !! out
          = Some (Store.OList
                    (acc ++ (Store.VStr <$> List.concat (map collect ts)))))
    /\ (Exists (fun t => limit < depth t) ts ->
        Limited.collect_loop fuel limit l i out st
        = Limited.Raise Limited.RecursionError).
Proof.
  induction 1 as [ | t ts (n1 & Ht) _ (n2 & IH) ].
  - exists 1.
    intros fuel limit st0 st l o i out acc Hfuel Hsub Hl Hout0 Hout Hrep.
    split; [ | by intros ?%Exists_nil ]. intros _.
    destruct fuel as [ | fuel ]; [ lia | ]. cbn [Limited.collect_loop].
    rewrite (lookup_weaken _ _ _ _ Hl Hsub), item_at_children.
    assert (Hi : Store.children o !! i = None).
    { rewrite <- (Nat.add_0_r i), <- lookup_drop.
      by apply Forall2_nil_inv_r in Hrep as ->. }
    rewrite Hi. exists st. cbn. by rewrite app_nil_r.
  - exists (S (n1 `max` n2)).
    intros fuel limit st0 st l o i out acc Hfuel Hsub Hl Hout0 Hout Hrep.
    destruct fuel as [ | fuel ]; [ lia | ]. cbn [Limited.collect_loop].
    rewrite (lookup_weaken _ _ _ _ Hl Hsub), item_at_children.
    apply Forall2_cons_inv_r in Hrep as (v & rest & Hv & Hrest & Hdrop).
    assert (Hi : Store.children o !! i = Some v).
    { by rewrite <- (Nat.add_0_r i), <- lookup_drop, Hdrop. }
    rewrite Hi.
    destruct (Ht fuel limit st v) as [Hfits Hdeep];
      [ lia | by eapply repr_weaken | ].
    destruct (le_lt_dec (depth t) limit) as [ Hle | Hgt ];
      [ | split; [ intros [? _]%Forall_cons; lia | intros _ ];
          by limited_step (Hdeep Hgt) ].
    destruct (Hfits Hle) as (r & st1 & Hc & Hsub1 & Hr & Hr1).
    limited_step Hc.
    assert (Hout1 : st1 !! out = Some (Store.OList acc))
      by (by eapply lookup_weaken).
    limited_step (limited_extend _ _ _ _ _ Hout1 Hr1).
    destruct (IH fuel limit st0
                (<[out := Store.OList (acc ++ (Store.VStr <$> collect t))]> st1)
                l o (S i) out (acc ++ (Store.VStr <$> collect t)))
      as [Hall Hsome].
    + lia.
    + apply insert_subseteq_r; [ done | by etrans ].
    + done.
    + done.
    + apply lookup_insert_eq.
    + rewrite (drop_S _ _ _ Hi) in Hdrop. by injection Hdrop as ->.
    + split.
      * intros [_ Hts]%Forall_cons.
        destruct (Hall Hts) as (st' & Hloop & Hsub' & Hout').
        exists st'. split; [ done | ]. split; [ done | ].
        rewrite Hout'. cbn [map List.concat].
        by rewrite fmap_app, app_assoc.
      * intros [ Hhead | Htail ]%Exists_cons; [ lia | by apply Hsome ].
Qed.

Lemma limited_collect_leaf (t : json) (s : list string) :
  depth t = 1 ->
  collect t = s ->
  (forall st v, Store.repr st v t ->
     forall fuel limit,
       Limited.collect (S fuel) (S limit) v st
       = Limited.new_list (Store.VStr <$> s) st) ->
  limited_collect_spec 1 t.
Proof.
  intros Hdepth Hs Hrun fuel limit st v Hfuel Hv. rewrite Hdepth, Hs.
  destruct fuel as [ | fuel ]; [ lia | ].
  destruct limit as [ | limit ]; (split; [ intros Hle | intros Hgt ]);
    try lia; [ done | ].
  rewrite (Hrun st v Hv).
  destruct (limited_new_list (Store.VStr <$> s) st) as (r & Hr & Hnone).
  exists r, (<[r := Store.OList (Store.VStr <$> s)]> st).
  split; [ done | ]. split; [ by apply insert_subseteq | ].
  split; [ done | apply lookup_insert_eq ].
Qed.

Lemma limited_collect_node (n : nat) (l : Store.loc) (o : Store.pyobj)
    (ts : list json) (fuel limit : nat) (st : Store.store) :
  (forall fuel limit st0 st l o i out acc,
     n <= fuel -> st0 ⊆ st -> st0 !! l = Some o -> st0 !! out = None ->
     st !! out = Some (Store.OList acc) ->
     Forall2 (Store.repr st0) (drop i (Store.children o)) ts ->
     (Forall (fun t => depth t <= limit) ts ->
      exists st',
        Limited.collect_loop fuel limit l i out st = Limited.Done tt st'
        /\ st0 ⊆ st'
        /\ st' !! out
           = Some (Store.OList
                     (acc ++ (Store.VStr <$> List.concat (map collect ts)))))
     /\ (Exists (fun t => limit < depth t) ts ->
         Limited.collect_loop fuel limit l i out st
         = Limited.Raise Limited.RecursionError)) ->
  S n <= fuel ->
  st !! l = Some o ->
  Forall2 (Store.repr st) (Store.children o) ts ->
  (S (foldr (fun t d => depth t `max` d) 0 ts) <= limit ->
   exists r st',
     Limited.collect fuel limit (Store.VRef l) st = Limited.Done r st'
     /\ st ⊆ st'
     /\ st !! r = None
     /\ st' !! r
        = Some (Store.OList (Store.VStr <$> List.concat (map collect ts))))
  /\ (limit < S (foldr (fun t d => depth t `max` d) 0 ts) ->
      Limited.collect fuel limit (Store.VRef l) st
      = Limited.Raise Limited.RecursionError).
Proof.
  intros Hloop Hfuel Hl Hrep.
  destruct fuel as [ | fuel ]; [ lia | ].
  destruct limit as [ | limit ]; [ split; [ lia | done ] | ].
  cbn [Limited.collect]. rewrite Hl.
  destruct (limited_new_list [] st) as (out & Hnew & Hout).
  limited_step Hnew.
  destruct (Hloop fuel limit st (<[out := Store.OList []]> st) l o 0 out [])
    as [Hall Hsome].
  - lia.
  - by apply insert_subseteq.
  - done.
  - done.
  - apply lookup_insert_eq.
  - done.
  - split.
    + intros Hle. apply le_S_n, depth_children_le in Hle.
      destruct (Hall Hle) as (st' & Hrun & Hsub & Hout').
      limited_step Hrun. by exists out, st'.
    + intros Hgt. apply Nat.succ_lt_mono, depth_children_gt in Hgt.
      by limited_step (Hsome Hgt).
Qed.

(** [Limited.collect] on a store that holds a tree. *)
Lemma limited_collect (t : json) : exists n, limited_collect_spec n t.
Proof.
  induction t as [ | b | z | q | s | items IH | fields IH ] using json_ind'.
  1-4: exists 1; apply (limited_collect_leaf _ []); [ done | done | ];
       by intros st v Hv fuel limit; inversion Hv.
  - exists 1. apply (limited_collect_leaf _ [s]); [ done | done | ].
    by intros st v Hv fuel limit; inversion Hv.
  - destruct (limited_collect_loop items IH) as [n Hloop].
    exists (S n). intros fuel limit st v Hfuel Hv. inversion Hv; subst.
    rewrite collect_list. cbn [depth].
    by eapply limited_collect_node.
  - assert (IH' : Forall (fun t => exists n, limited_collect_spec n t)
                    (map snd fields)).
    { change (map snd fields) with (snd <$> fields). by apply Forall_fmap. }
    destruct (limited_collect_loop _ IH') as [n Hloop].
    exists (S n). intros fuel limit st v Hfuel Hv. inversion Hv; subst.
    rewrite collect_dict. cbn [depth].
    replace (foldr (fun kv d => depth (snd kv) `max` d) 0 fields)
      with (foldr (fun t d => depth t `max` d) 0 (map snd fields))
      by (change (map snd fields) with (snd <$> fields);
          by rewrite foldr_fmap).
    eapply limited_collect_node; [ done.. | ].
    cbn [Store.children]. change (map snd fields) with (snd <$> fields).
    apply Forall2_fmap.
    eapply Forall2_impl; [ eassumption | ]. by intros vf tf [_ Hvf].
Qed.

Lemma limited_scan_string_fits (lib_frames limit : nat) (w : Store.loc)
    (s : string) (xs : list Store.pyval) (st : Store.store) :
  lib_frames <= limit ->
  st !! w = Some (Store.OList xs) ->
  Limited.scan_string lib_frames limit w (Store.VStr s) st
  = Limited.Done tt
      (<[w := Store.OList
                (xs ++ (Store.VStr <$> banned_warnings s ++ long_warnings s))]>
         st).
Proof.
  intros Hfits Hw. cbn [Limited.scan_string]. unfold Limited.bind.
  rewrite (banned_loop_refines w s _ _ xs st Hw). cbn [Limited.lift].
  rewrite (proj2 (Nat.ltb_ge _ _) Hfits).
  erewrite sentence_loop_refines; [ | apply lookup_insert_eq ].
  cbn [Limited.lift]. by rewrite insert_insert_eq, fmap_app, app_assoc.
Qed.

Lemma limited_scan_string_raises (lib_frames limit : nat) (w : Store.loc)
    (s : string) (xs : list Store.pyval) (st : Store.store) :
  limit < lib_frames ->
  st !! w = Some (Store.OList xs) ->
  Limited.scan_string lib_frames limit w (Store.VStr s) st
  = Limited.Raise Limited.RecursionError.
Proof.
  intros Hshort Hw. cbn [Limited.scan_string]. unfold Limited.bind.
  rewrite (banned_loop_refines w s _ _ xs st Hw). cbn [Limited.lift].
  by rewrite (proj2 (Nat.ltb_lt _ _) Hshort).
Qed.

Lemma limited_scan_loop_fits (lib_frames limit : nat) (ss : list string) :
  ss = [] \/ lib_frames <= limit ->
  forall fuel st strings i w all xs,
    length ss < fuel ->
    st !! strings = Some (Store.OList all) ->
    drop i all = Store.VStr <$> ss ->
    strings <> w ->
    st !! w = Some (Store.OList xs) ->
    Limited.scan_loop fuel lib_frames limit strings i w st
    = Limited.Done tt
        (<[w := Store.OList
                  (xs ++ (Store.VStr <$>
                            List.concat
                              (map (fun s => banned_warnings s ++ long_warnings s)
                                 ss)))]> st).
Proof.
  intros Hroom.
  induction ss as [ | s ss IH ];
    intros fuel st strings i w all xs Hfuel Hstrings Hdrop Hne Hw;
    (destruct fuel as [ | fuel ]; [ cbn in Hfuel; lia | ]);
    cbn [Limited.scan_loop]; rewrite Hstrings; cbn [Store.item_at].
  - assert (Hi : all !! i = None).
    { by rewrite <- (Nat.add_0_r i), <- lookup_drop, Hdrop. }
    rewrite Hi. by rewrite <- insert_same_list.
  - destruct Hroom as [ | Hroom ]; [ done | ].
    assert (Hi : all !! i = Some (Store.VStr s)).
    { by rewrite <- (Nat.add_0_r i), <- lookup_drop, Hdrop. }
    rewrite Hi.
    limited_step (limited_scan_string_fits lib_frames limit w s xs st Hroom Hw).
    erewrite (IH (or_intror Hroom) fuel _ strings (S i) w all).
    + rewrite insert_insert_eq. cbn [map List.concat].
      by rewrite fmap_app, app_assoc.
    + cbn in Hfuel. lia.
    + by rewrite lookup_insert_ne.
    + rewrite (drop_S _ _ _ Hi) in Hdrop. by injection Hdrop.
    + done.
    + apply lookup_insert_eq.
Qed.

(** The scan with a bound on nested calls: what it returns with room
    enough, and when it raises. *)
Lemma limited_scan_outcome (t : json) :
  exists n, forall fuel lib_frames limit st topic,
    n <= fuel ->
    Store.repr st topic t ->
    (depth t <= limit ->
     collect t = [] \/ lib_frames <= limit ->
     exists w st',
       Limited.safety_scan_topic fuel lib_frames limit topic st
       = Limited.Done w st'
       /\ st ⊆ st'
       /\ Store.read_strings st' w = Some (safety_scan_topic t))
    /\ (limit < depth t \/ (collect t <> [] /\ limit < lib_frames) ->
        Limited.safety_scan_topic fuel lib_frames limit topic st
        = Limited.Raise Limited.RecursionError).
Proof.
  destruct (limited_collect t) as [n Hcollect].
  exists (n `max` S (length (collect t))).
  intros fuel lib_frames limit st topic Hfuel Hrep.
  unfold Limited.safety_scan_topic.
  destruct (limited_new_list [] st) as (w & Hnew & Hw).
  destruct (Hcollect fuel limit (<[w := Store.OList []]> st) topic)
    as [Hfits Hdeep];
    [ lia | eapply repr_weaken; [ by apply insert_subseteq | done ] | ].
  destruct (le_lt_dec (depth t) limit) as [ Hle | Hgt ];
    [ | split; [ lia | intros _ ]; limited_step Hnew;
        by rewrite (Hdeep Hgt) ].
  destruct (Hfits Hle) as (r & st2 & Hc & Hsub & Hr & Hr2).
  assert (Hw2 : st2 !! w = Some (Store.OList [])).
  { eapply lookup_weaken; [ | done ]. apply lookup_insert_eq. }
  assert (Hne : r <> w).
  { intros ->. by rewrite lookup_insert_eq in Hr. }
  split.
  - intros _ Hroom. limited_step Hnew. rewrite Hc.
    erewrite (limited_scan_loop_fits lib_frames limit (collect t) Hroom
                fuel st2 r 0 w _ [] _ Hr2 _ Hne Hw2).
    eexists w, _. split; [ done | ]. split.
    + apply insert_subseteq_r; [ done | ].
      etrans; [ by apply insert_subseteq | done ].
    + apply read_strings_list. by rewrite lookup_insert_eq, scan_strings.
  - intros [ Hdepth | [Hsome Hshort] ]; [ lia | ].
    limited_step Hnew. rewrite Hc.
    destruct (collect t) as [ | s ss ] eqn:Hs; [ done | ].
    destruct fuel as [ | fuel ]; [ lia | ].
    cbn [Limited.scan_loop]. rewrite Hr2. cbn [Store.item_at fmap list_fmap].
    cbn [lookup list_lookup].
    by limited_step
         (limited_scan_string_raises lib_frames limit w s [] st2 Hshort Hw2).
  Unshelve. { lia. } { done. }
Qed.

Lemma deep_store_before (k : nat) (l l' : Store.loc) :
  (l' < l)%positive -> deep_store k l !! l' = None.
Proof.
  revert l. induction k as [ | k IH ]; intros l Hlt; cbn [deep_store].
  - apply lookup_singleton_ne. lia.
  - rewrite lookup_insert_ne by lia. apply IH. lia.
Qed.

Lemma deep_store_holds (k : nat) (l : Store.loc) :
  Store.repr (deep_store k l) (Store.VRef l) (deep_tree k).
Proof.
  revert l. induction k as [ | k IH ]; intros l; cbn [deep_store deep_tree].
  - eapply Store.repr_list; [ apply lookup_singleton_eq | ].
    repeat constructor.
  - eapply Store.repr_list; [ apply lookup_insert_eq | ].
    constructor; [ | constructor ].
    eapply repr_weaken; [ | apply IH ].
    apply insert_subseteq, deep_store_before. lia.
Qed.

Lemma deep_tree_depth (k : nat) : depth (deep_tree k) = k + 2.
Proof.
  induction k as [ | k IH ]; [ done | ]. cbn [deep_tree depth foldr].
  rewrite IH. lia.
Qed.




(** With the same room a string inside three lists is scanned. *)
Example limited_scan_of_shallow_topic :
  match Limited.safety_scan_topic 50 2 1000 (Store.VRef 1%positive)
          (deep_store 2 1%positive) with
  | Limited.Done w st' => Store.read_strings st' w
  | _ => None
  end
  = Some (safety_scan_topic (deep_tree 2)).
Proof. by vm_compute. Qed.

(** The scan of the small store, run. *)
Example example_store_scan :
  match Store.safety_scan_topic 8 example_topic example_store with
  | Store.Done w st' => Store.read_strings st' w
  | _ => None
  end
  = Some [ "Banned phrase " +:+ dquote +:+ "take " +:+ dquote
           +:+ " found in: Take a dose....";
           "Banned phrase " +:+ dquote +:+ "most likely" +:+ dquote
           +:+ " found in: most likely..." ]
  /\ Store.safety_scan_topic 3 example_topic example_store = Store.OutOfFuel.
Proof. by vm_compute. Qed.

(** The loop of the scan does raise on a list that holds something else
    than strings; [collect] never returns one. *)
Example scan_loop_raises_on_non_string :
  Store.scan_loop 5 1%positive 0 2%positive
    (<[ 1%positive := Store.OList [ Store.VStr "dose"; Store.VNone ] ]>
       (<[ 2%positive := Store.OList [] ]> ∅))
  = Store.Raise Store.AttributeError.
Proof. by vm_compute. Qed.

(** ** Purity *)

(** C8: two scans of the same topic, one after the other on the store the
    first one left, return lists with the same warnings, those of the tree;
    every object of the store before a scan is the same after it, so the
    topic still holds the same tree; and whatever else the store holds and
    wherever the topic lies, the warnings are those of the tree. *)
Theorem C8_scan_twice_same_warnings (st : Store.store) (topic : Store.pyval)
    (t : json) :
  Store.repr st topic t ->
  exists n, forall fuel,
    n <= fuel ->
    (exists w1 st1 w2 st2,
       Store.safety_scan_topic fuel topic st = Store.Done w1 st1
       /\ Store.safety_scan_topic fuel topic st1 = Store.Done w2 st2
       /\ st ⊆ st1 /\ st1 ⊆ st2
       /\ Store.repr st2 topic t
       /\ Store.read_strings st2 w1 = Some (safety_scan_topic t)
       /\ Store.read_strings st2 w2 = Some (safety_scan_topic t))
    /\ (forall st' topic',
          Store.repr st' topic' t ->
          scan_returns fuel st' topic' (safety_scan_topic t)).
Proof.
  intros Hrep. destruct (safety_scan_topic_refines t) as [n Hn]. exists n.
  intros fuel Hfuel. split; [ | intros st' topic'; by apply Hn ].
  destruct (Hn fuel st topic Hfuel Hrep) as (w1 & st1 & Hrun1 & Hsub1 & _ & Hw1).
  assert (Hrep1 : Store.repr st1 topic t) by (by eapply repr_weaken).
  destruct (Hn fuel st1 topic Hfuel Hrep1)
    as (w2 & st2 & Hrun2 & Hsub2 & _ & Hw2).
  exists w1, st1, w2, st2. repeat split; try done.
  - by eapply repr_weaken.
  - by eapply read_strings_weaken.
Qed.

Lemma C8_scan_twice_same_warnings_witness :
  Store.repr example_store example_topic example_tree
  /\ exists n, forall fuel,
       n <= fuel ->
       (exists w1 st1 w2 st2,
          Store.safety_scan_topic fuel example_topic example_store
          = Store.Done w1 st1
          /\ Store.safety_scan_topic fuel example_topic st1
             = Store.Done w2 st2
          /\ example_store ⊆ st1 /\ st1 ⊆ st2
          /\ Store.repr st2 example_topic example_tree
          /\ Store.read_strings st2 w1 = Some (safety_scan_topic example_tree)
          /\ Store.read_strings st2 w2 = Some (safety_scan_topic example_tree))
       /\ (forall st' topic',
             Store.repr st' topic' example_tree ->
             scan_returns fuel st' topic' (safety_scan_topic example_tree)).
Proof.
  split; [ exact example_store_holds_tree | ].
  exact (C8_scan_twice_same_warnings example_store example_topic example_tree
           example_store_holds_tree).
Defined.

(** * More properties of the code *)

(** ** The size of a scan and the clean topic *)

Lemma banned_warnings_nil (s : string) :
  banned_warnings s = []
  <-> Forall (fun phrase => contains phrase (lower s) = false) BANNED_PHRASES.
Proof.
  unfold banned_warnings. rewrite banned_loop_find, <- find_none_forall.
  by destruct (find _ BANNED_PHRASES).
Qed.

Lemma long_warnings_nil (s : string) :
  long_warnings s = []
  <-> Forall (fun sent => word_count sent <= 25) (sentences s).
Proof.
  rewrite long_warnings_find.
  transitivity (find (fun sent => 25 <? word_count sent) (sentences s) = None).
  - by destruct (find _ (sentences s)).
  - rewrite find_none_forall. apply Forall_proper; [ | done ].
    intros sent. by rewrite Nat.ltb_ge.
Qed.

Lemma string_warnings_length (s : string) :
  length (banned_warnings s ++ long_warnings s) <= 2.
Proof.
  rewrite length_app. unfold banned_warnings.
  rewrite banned_loop_find, long_warnings_find.
  destruct (find _ BANNED_PHRASES), (find _ (sentences s)); cbn; lia.
Qed.

(** X1: a scan returns at most two warnings for each string of the topic. *)
Theorem scan_at_most_two_per_string (topic : json) :
  length (safety_scan_topic topic) <= 2 * length (collect topic).
Proof.
  rewrite scan_strings.
  induction (collect topic) as [ | s strings IH ]; [ done | ].
  cbn [map List.concat]. rewrite length_app.
  pose proof (string_warnings_length s). cbn [length]. lia.
Qed.

(** X2: a scan returns no warning exactly when no string of the topic holds,
    lowercased, an entry of the table, or has a sentence of more than 25
    words. *)
Theorem scan_empty_iff_clean (topic : json) :
  safety_scan_topic topic = []
  <-> Forall (fun s =>
                Forall (fun phrase => contains phrase (lower s) = false)
                  BANNED_PHRASES
                /\ Forall (fun sent => word_count sent <= 25) (sentences s))
        (collect topic).
Proof.
  rewrite scan_strings.
  induction (collect topic) as [ | s strings IH ]; cbn [map List.concat].
  - split; [ constructor | done ].
  - rewrite Forall_cons, <- IH, <- banned_warnings_nil, <- long_warnings_nil.
    split.
    + intros [[Hb Hl]%app_eq_nil Hrest]%app_eq_nil. done.
    + intros [[-> ->] ->]. done.
Qed.

(** ** [normalize_text] *)

Lemma rstrip_cons (c : ascii) (r : string) :
  isspace c = false -> rstrip (String c r) = String c (rstrip r).
Proof. intros Hc. cbn [rstrip]. rewrite Hc. by destruct (rstrip r). Qed.

Lemma lstrip_re_sub_from (b : bool) (s : string) :
  lstrip (re_sub_from b s) = re_sub_from true s.
Proof.
  revert b. induction s as [ | c s IH ]; intros b; [ done | ].
  cbn [re_sub_from]. destruct (isspace c) eqn:Hc.
  - destruct b; [ apply IH | ]. cbn [lstrip].
    change (isspace " ") with true. cbn. apply IH.
  - cbn [lstrip]. by rewrite Hc.
Qed.

Lemma strip_re_sub_from (b : bool) (s : string) :
  strip (re_sub_from b s) = rstrip (re_sub_from true s).
Proof. unfold strip. by rewrite lstrip_re_sub_from. Qed.

Lemma join_cons_cons (sep x y : string) (rest : list string) :
  join sep (x :: y :: rest) = x +:+ sep +:+ join sep (y :: rest).
Proof. done. Qed.

Lemma join_head (c : ascii) (w : string) (ws : list string) :
  join " " (String c w :: ws) = String c (join " " (w :: ws)).
Proof. destruct ws; [ done | ]. by rewrite !join_cons_cons. Qed.

Lemma join_not_empty (w : string) (ws : list string) :
  w <> EmptyString -> exists c r, join " " (w :: ws) = String c r.
Proof.
  intros Hw. destruct w as [ | c w ]; [ done | ].
  rewrite join_head. by eexists _, _.
Qed.

(** Collapsing the whitespace and stripping leaves the words of the string
    with one space between them. *)
Lemma strip_re_sub_words (s : string) (b : bool) :
  strip (re_sub_from b s) = join " " (str_split s).
Proof.
  rewrite strip_re_sub_from.
  induction s as [ | c s IH ]; [ done | ].
  cbn [re_sub_from str_split]. destruct (isspace c) eqn:Hc; [ exact IH | ].
  rewrite (rstrip_cons c _ Hc).
  destruct s as [ | c' s ]; [ done | ].
  cbn [re_sub_from] in *. destruct (isspace c') eqn:Hc'.
  - cbn [rstrip]. change (isspace " ") with true. rewrite IH.
    destruct (str_split (String c' s)) as [ | w ws ] eqn:Hws; [ done | ].
    pose proof (str_split_words (String c' s)) as Hall. rewrite Hws in Hall.
    apply Forall_cons in Hall as [[Hw _] _].
    destruct (join_not_empty w ws Hw) as (x & r & Hj).
    by rewrite join_cons_cons, Hj.
  - rewrite (rstrip_cons c' _ Hc') in IH.
    assert (Hr : rstrip (String c' (re_sub_from false s))
                 = join " " (str_split (String c' s))).
    { by rewrite (rstrip_cons c' _ Hc'). }
    rewrite Hr. destruct (str_split_head c' s Hc') as (w & ws & Hw).
    rewrite Hw. by rewrite (join_head c).
Qed.

Lemma lower_char_space (c : ascii) :
  isspace c = true -> lower_char c = c.
Proof.
  destruct c as [[] [] [] [] [] [] [] []]; vm_compute; congruence.
Qed.

Lemma lower_char_idem (c : ascii) : lower_char (lower_char c) = lower_char c.
Proof. by destruct c as [[] [] [] [] [] [] [] []]; vm_compute. Qed.

Lemma lower_idem (s : string) : lower (lower s) = lower s.
Proof.
  induction s as [ | c s IH ]; cbn; [ done | ].
  by rewrite lower_char_idem, IH.
Qed.

Lemma lower_app (a b : string) : lower (a +:+ b) = lower a +:+ lower b.
Proof.
  induction a as [ | c a IH ]; app_simpl; cbn [lower]; [ done | ].
  app_simpl. by rewrite IH.
Qed.

Lemma lower_join (ws : list string) :
  lower (join " " ws) = join " " (map lower ws).
Proof.
  induction ws as [ | w ws IH ]; [ done | ].
  destruct ws as [ | w' ws ]; [ done | ].
  cbn [map] in *. by rewrite !join_cons_cons, !lower_app, IH.
Qed.

Lemma str_split_lower (s : string) :
  str_split (lower s) = map lower (str_split s).
Proof.
  induction s as [ | c s IH ]; [ done | ].
  cbn [lower str_split]. rewrite isspace_lower_char.
  destruct (isspace c) eqn:Hc; [ exact IH | ].
  destruct s as [ | c' s ]; [ done | ].
  cbn [lower] in *. rewrite isspace_lower_char.
  destruct (isspace c') eqn:Hc'; [ by rewrite IH | ].
  rewrite IH. by destruct (str_split (String c' s)).
Qed.

Lemma normalize_text_join (s : string) :
  normalize_text s = join " " (map lower (str_split s)).
Proof.
  unfold normalize_text, re_sub. by rewrite strip_re_sub_words, lower_join.
Qed.

Lemma str_split_app_space (a b : string) (c : ascii) :
  isspace c = true ->
  str_split (a +:+ String c b) = str_split a ++ str_split b.
Proof.
  intros Hc. induction a as [ | x a IH ]; app_simpl.
  - cbn [str_split]. by rewrite Hc.
  - cbn [str_split]. destruct (isspace x) eqn:Hx; [ exact IH | ].
    destruct a as [ | y a ]; app_simpl.
    + rewrite Hc. cbn [str_split] in *. by rewrite Hc.
    + destruct (isspace y) eqn:Hy; [ by rewrite IH | ].
      rewrite IH. destruct (str_split_head y a Hy) as (w & ws & Hw).
      by rewrite Hw.
Qed.

Lemma str_split_word (w : string) :
  w <> EmptyString -> has_char isspace w = false -> str_split w = [w].
Proof.
  induction w as [ | c w IH ]; [ done | ]. intros _.
  cbn [has_char]. intros [Hc Hw]%orb_false_iff.
  cbn [str_split]. rewrite Hc. destruct w as [ | c' w ]; [ done | ].
  cbn [has_char] in Hw. apply orb_false_iff in Hw as [Hc' Hw].
  rewrite Hc'. rewrite IH; [ done | done | ]. cbn [has_char].
  by rewrite Hc', Hw.
Qed.

(** Words put together with one space between them are the words of the
    string they make. *)
Lemma str_split_join (ws : list string) :
  Forall (fun w => w <> EmptyString /\ has_char isspace w = false) ws ->
  str_split (join " " ws) = ws.
Proof.
  induction 1 as [ | w ws [Hne Hw] Hws IH ]; [ done | ].
  destruct ws as [ | w' ws ]; [ by apply str_split_word | ].
  rewrite join_cons_cons. change (" " +:+ ?r) with (String " " r).
  rewrite str_split_app_space; [ | done ].
  by rewrite IH, str_split_word.
Qed.

Lemma has_char_isspace_lower (w : string) :
  has_char isspace (lower w) = has_char isspace w.
Proof.
  induction w as [ | c w IH ]; cbn; [ done | ].
  by rewrite isspace_lower_char, IH.
Qed.

Lemma lower_words (ws : list string) :
  Forall (fun w => w <> EmptyString /\ has_char isspace w = false) ws ->
  Forall (fun w => w <> EmptyString /\ has_char isspace w = false)
    (map lower ws).
Proof.
  induction 1 as [ | w ws [Hne Hw] _ IH ]; cbn [map]; constructor; [ | done ].
  rewrite has_char_isspace_lower. split; [ | done ]. by destruct w.
Qed.

(** The words of a normalized text are the lowercased words of the text. *)
Lemma str_split_normalize_text (s : string) :
  str_split (normalize_text s) = map lower (str_split s).
Proof.
  rewrite normalize_text_join. apply str_split_join, lower_words.
  apply str_split_words.
Qed.

Lemma normalize_text_twice (s : string) :
  normalize_text (normalize_text s) = normalize_text s.
Proof.
  rewrite (normalize_text_join (normalize_text s)), str_split_normalize_text.
  rewrite normalize_text_join, map_map. f_equal.
  apply map_ext. intros w. apply lower_idem.
Qed.

Lemma normalize_text_eq_words (s1 s2 : string) :
  (normalize_text s1 = normalize_text s2
   <-> map lower (str_split s1) = map lower (str_split s2))
  /\ (normalize_text s1 = EmptyString <-> all_space s1 = true).
Proof.
  split.
  - rewrite <- !str_split_normalize_text. split; [ by intros -> | ].
    intros Heq. rewrite <- (normalize_text_twice s1),
      <- (normalize_text_twice s2).
    by rewrite (normalize_text_join (normalize_text s1)), Heq,
      <- normalize_text_join.
  - rewrite normalize_text_join. split.
    + intros Hj. induction s1 as [ | c s IH ]; [ done | ].
      cbn [all_space]. destruct (isspace c) eqn:Hc.
      * apply IH. cbn [str_split] in Hj. by rewrite Hc in Hj.
      * destruct (str_split_head c s Hc) as (w & ws & Hw).
        rewrite Hw in Hj. cbn [map lower] in Hj.
        by rewrite join_head in Hj.
    + intros Hs. induction s1 as [ | c s IH ]; [ done | ].
      cbn [all_space] in Hs. apply andb_true_iff in Hs as [Hc Hs].
      cbn [str_split]. rewrite Hc. by apply IH.
Qed.

(** X3: [normalize_text] returns the words of the text, lowercased, with one
    space between two of them; so its words are the lowercased words of
    the text, as many as the text has. *)
Theorem normalize_text_words (s : string) :
  normalize_text s = join " " (map lower (str_split s))
  /\ str_split (normalize_text s) = map lower (str_split s)
  /\ word_count (normalize_text s) = word_count s.
Proof.
  split; [ apply normalize_text_join | ].
  split; [ apply str_split_normalize_text | ].
  unfold word_count. by rewrite str_split_normalize_text, length_map.
Qed.

(** X4: normalizing a normalized text changes nothing, and neither does
    lowercasing it, nor collapsing its whitespace and stripping it. *)
Theorem normalize_text_idempotent (s : string) :
  normalize_text (normalize_text s) = normalize_text s
  /\ lower (normalize_text s) = normalize_text s
  /\ strip (re_sub (normalize_text s)) = normalize_text s.
Proof.
  split; [ apply normalize_text_twice | ]. split.
  - unfold normalize_text. apply lower_idem.
  - unfold re_sub. rewrite strip_re_sub_words, str_split_normalize_text.
    by rewrite <- normalize_text_join.
Qed.

(** X5: two texts have the same normal form exactly when they have the same
    words up to case, and the normal form of a text is empty exactly when
    the text is empty or whitespace. *)
Theorem normalize_text_same_words (s1 s2 : string) :
  (normalize_text s1 = normalize_text s2
   <-> map lower (str_split s1) = map lower (str_split s2))
  /\ (normalize_text s1 = EmptyString <-> all_space s1 = true)
  /\ (normalize_text s1 = EmptyString <-> str_split s1 = []).
Proof.
  destruct (normalize_text_eq_words s1 s2) as [Hwords Hempty].
  split; [ exact Hwords | ]. split; [ exact Hempty | ].
  rewrite normalize_text_join. split.
  - destruct (str_split s1) as [ | w ws ] eqn:Hs; [ done | ].
    pose proof (str_split_words s1) as Hall. rewrite Hs in Hall.
    apply Forall_cons in Hall as [[Hw _] _].
    intros Hj. cbn [map] in Hj.
    destruct (join_not_empty (lower w) (map lower ws)) as (c & r & Hcr);
      [ by destruct w | congruence ].
  - by intros ->.
Qed.

(** ** [matches_search] *)

Lemma contains_nil (s : string) : contains EmptyString s = true.
Proof. by destruct s. Qed.

Lemma contains_within (p m h : string) :
  contains p m = true ->
  (exists a b, h = a +:+ m +:+ b) ->
  contains p h = true.
Proof.
  intros (x & y & ->)%contains_spec (a & b & ->). apply contains_spec.
  exists (a +:+ x), (y +:+ b). by rewrite !append_assoc.
Qed.

Lemma join_app (xs ys : list string) :
  exists glue, join " " (xs ++ ys) = join " " xs +:+ glue +:+ join " " ys.
Proof.
  induction xs as [ | x xs (glue & IH) ]; [ by exists EmptyString | ].
  destruct xs as [ | x' xs ].
  - destruct ys as [ | y ys ].
    + exists EmptyString. cbn. by rewrite append_nil_r.
    + exists " ". done.
  - exists glue. cbn [app] in *. rewrite !join_cons_cons, IH.
    by rewrite !append_assoc.
Qed.

Lemma join_within (xs ys zs : list string) :
  exists a b, join " " (xs ++ ys ++ zs) = a +:+ join " " ys +:+ b.
Proof.
  destruct (join_app xs (ys ++ zs)) as (g1 & H1).
  destruct (join_app ys zs) as (g2 & H2).
  exists (join " " xs +:+ g1), (g2 +:+ join " " zs).
  by rewrite H1, H2, !append_assoc.
Qed.

(** The normal form of the three texts with a space between them: the
    words of the first, of the second and of the third. *)
Lemma normalize_text_hay (a b c : string) :
  normalize_text (join " " [a; b; c])
  = join " " (map lower (str_split a) ++ map lower (str_split b)
              ++ map lower (str_split c)).
Proof.
  rewrite normalize_text_join.
  change (join " " [a; b; c]) with (a +:+ String " " (b +:+ String " " c)).
  rewrite !str_split_app_space by done. by rewrite !map_app.
Qed.

Lemma matches_search_texts (topic : json) (q a b c : string) :
  q <> EmptyString ->
  dict_get topic "title" (JStr EmptyString) = Ok (JStr a) ->
  dict_get topic "oneMinuteSummary" (JStr EmptyString) = Ok (JStr b) ->
  dict_get topic "eli5Summary" (JStr EmptyString) = Ok (JStr c) ->
  matches_search topic q
  = Ok (contains (normalize_text q) (normalize_text (join " " [a; b; c]))).
Proof.
  intros Hq Ha Hb Hc. unfold matches_search.
  destruct q; [ done | ]. cbn [truthy negb]. by rewrite Ha, Hb, Hc.
Qed.

(** X6: an empty query matches any value at all, without looking at it; a
    query of whitespace matches every topic whose title and two summaries
    are strings or missing. *)
Theorem matches_search_blank_query (topic : json) (q a b c : string) :
  all_space q = true ->
  dict_get topic "title" (JStr EmptyString) = Ok (JStr a) ->
  dict_get topic "oneMinuteSummary" (JStr EmptyString) = Ok (JStr b) ->
  dict_get topic "eli5Summary" (JStr EmptyString) = Ok (JStr c) ->
  matches_search topic q = Ok true
  /\ forall v, matches_search v EmptyString = Ok true.
Proof.
  intros Hq Ha Hb Hc. split; [ | done ].
  destruct (decide (q = EmptyString)) as [-> | Hne]; [ done | ].
  rewrite (matches_search_texts topic q a b c) by done.
  apply (proj2 (normalize_text_eq_words q q)) in Hq. rewrite Hq.
  by rewrite contains_nil.
Qed.

Lemma matches_search_blank_query_witness :
  all_space "  " = true
  /\ matches_search
       (JDict [ ("title", JStr "Asthma"); ("eli5Summary", JStr "Airways.") ])
       "  " = Ok true.
Proof.
  split; [ reflexivity | ].
  apply (matches_search_blank_query
           (JDict [ ("title", JStr "Asthma"); ("eli5Summary", JStr "Airways.") ])
           "  " "Asthma" EmptyString "Airways."); reflexivity.
Defined.

(** X7: with a query that is not empty the search raises exactly on a value
    that is no dict ([AttributeError]) and on a dict where the title or
    one of the two summaries is there and is no string ([TypeError]). *)
Theorem matches_search_raises (topic : json) (q : string) :
  q <> EmptyString ->
  match topic with
  | JDict fields =>
      (forall key,
         In key ["title"; "oneMinuteSummary"; "eli5Summary"] ->
         exists x, dict_get topic key (JStr EmptyString) = Ok (JStr x))
      /\ (exists found, matches_search topic q = Ok found)
      \/ (exists key v,
            In key ["title"; "oneMinuteSummary"; "eli5Summary"]
            /\ dict_get topic key (JStr EmptyString) = Ok v
            /\ (forall x, v <> JStr x))
         /\ matches_search topic q = Raise TypeError
  | _ => matches_search topic q = Raise AttributeError
  end.
Proof.
  intros Hq. destruct q as [ | c0 q ]; [ done | clear Hq ].
  destruct topic as [ | | | | | | fields ]; try done.
  unfold matches_search. cbn [truthy negb and_then].
  destruct (dict_get (JDict fields) "title" (JStr EmptyString))
    as [a | ] eqn:Ha; [ | done ].
  destruct (dict_get (JDict fields) "oneMinuteSummary" (JStr EmptyString))
    as [b | ] eqn:Hb; [ | done ].
  destruct (dict_get (JDict fields) "eli5Summary" (JStr EmptyString))
    as [c | ] eqn:Hc; [ | done ].
  cbn [and_then].
  destruct a as [ | | | | a | | ];
    try (right; split; [ | done ]; eexists "title", _;
         split; [ cbn; by auto | ]; split; [ exact Ha | done ]).
  destruct b as [ | | | | b | | ];
    try (right; split; [ | done ]; eexists "oneMinuteSummary", _;
         split; [ cbn; by auto | ]; split; [ exact Hb | done ]).
  destruct c as [ | | | | c | | ];
    try (right; split; [ | done ]; eexists "eli5Summary", _;
         split; [ cbn; by auto | ]; split; [ exact Hc | done ]).
  left. split; [ | eexists; reflexivity ].
  intros key [<- | [<- | [<- | []]]]; by eexists.
Qed.

Lemma matches_search_raises_witness :
  "a" <> EmptyString
  /\ matches_search (JList []) "a" = Raise AttributeError
  /\ matches_search (JDict [ ("title", JNull) ]) "a" = Raise TypeError.
Proof.
  split; [ discriminate | ]. split.
  - apply (matches_search_raises (JList []) "a"). discriminate.
  - destruct (matches_search_raises (JDict [ ("title", JNull) ]) "a")
      as [ [_ [found Hfound]] | [_ Hraise] ];
      [ discriminate | discriminate Hfound | exact Hraise ].
Defined.

(** X8: a query whose normal form stands in the normal form of the title, or of
    one of the two summaries, matches the topic. *)
Theorem matches_search_within_field (topic : json) (q a b c x : string) :
  q <> EmptyString ->
  dict_get topic "title" (JStr EmptyString) = Ok (JStr a) ->
  dict_get topic "oneMinuteSummary" (JStr EmptyString) = Ok (JStr b) ->
  dict_get topic "eli5Summary" (JStr EmptyString) = Ok (JStr c) ->
  In x [a; b; c] ->
  contains (normalize_text q) (normalize_text x) = true ->
  matches_search topic q = Ok true.
Proof.
  intros Hq Ha Hb Hc Hx Hin.
  rewrite (matches_search_texts topic q a b c) by done. f_equal.
  eapply contains_within; [ exact Hin | ].
  rewrite normalize_text_hay, normalize_text_join.
  destruct Hx as [<- | [<- | [<- | []]]].
  - apply (join_within []).
  - apply join_within.
  - pose proof (join_within (map lower (str_split a) ++ map lower (str_split b))
                  (map lower (str_split c)) []) as Hw.
    by rewrite app_nil_r, <- app_assoc in Hw.
Qed.

Lemma matches_search_within_field_witness :
  "BLOOD   pressure" <> EmptyString
  /\ contains (normalize_text "BLOOD   pressure")
       (normalize_text "High blood pressure basics") = true
  /\ matches_search
       (JDict [ ("id", JInt 7); ("title", JStr "High blood pressure basics") ])
       "BLOOD   pressure" = Ok true.
Proof.
  split; [ discriminate | ]. split; [ reflexivity | ].
  apply (matches_search_within_field
           (JDict [ ("id", JInt 7);
                    ("title", JStr "High blood pressure basics") ])
           "BLOOD   pressure" "High blood pressure basics" EmptyString
           EmptyString "High blood pressure basics");
    [ discriminate | reflexivity | reflexivity | reflexivity
    | left; reflexivity | reflexivity ].
Defined.

(** X9: the search does not see the case of the query nor its whitespace: two
    queries with the same words up to case give the same answer, or the
    same exception, on every value. *)
Theorem matches_search_query_words (topic : json) (q1 q2 : string) :
  q1 <> EmptyString ->
  q2 <> EmptyString ->
  map lower (str_split q1) = map lower (str_split q2) ->
  matches_search topic q1 = matches_search topic q2.
Proof.
  intros H1 H2 Hwords.
  apply (proj1 (normalize_text_eq_words q1 q2)) in Hwords.
  unfold matches_search. destruct q1; [ done | ]. destruct q2; [ done | ].
  cbn [truthy negb]. by rewrite Hwords.
Qed.

Lemma matches_search_query_words_witness :
  "Heart  Burn" <> EmptyString
  /\ " heart burn" <> EmptyString
  /\ map lower (str_split "Heart  Burn") = map lower (str_split " heart burn")
  /\ matches_search (JDict [ ("title", JStr "Heartburn") ]) "Heart  Burn"
     = matches_search (JDict [ ("title", JStr "Heartburn") ]) " heart burn".
Proof.
  split; [ discriminate | ]. split; [ discriminate | ].
  split; [ reflexivity | ].
  apply (matches_search_query_words
           (JDict [ ("title", JStr "Heartburn") ]) "Heart  Burn" " heart burn");
    [ discriminate | discriminate | reflexivity ].
Defined.

(** The three texts are searched as one: a query can match across the end
    of the title and the start of the summary. *)
Example matches_search_across_fields :
  matches_search
    (JDict [ ("title", JStr "High blood");
             ("oneMinuteSummary", JStr "Pressure in the arteries.") ])
    "blood pressure" = Ok true.
Proof. reflexivity. Qed.

(** ** The filter of the page *)

Lemma filter_loop_acc (category q : string) (topics acc : list json) :
  filter_loop category q topics acc
  = and_then (filter_loop category q topics [])
      (fun filtered => Ok (acc ++ filtered)).
Proof.
  revert acc. induction topics as [ | t topics IH ]; intros acc; cbn.
  - by rewrite app_nil_r.
  - destruct (keeps_topic category q t) as [ [ | ] | e ]; cbn; [ | done | done ].
    rewrite (IH (acc ++ [t])), (IH [t]).
    destruct (filter_loop category q topics []); cbn; [ | done ].
    by rewrite <- app_assoc.
Qed.

Lemma filter_topics_cons (category q : string) (t : json)
    (topics : list json) :
  filter_topics category q (t :: topics)
  = and_then (keeps_topic category q t) (fun keep =>
    and_then (filter_topics category q topics) (fun filtered =>
      Ok (if keep then t :: filtered else filtered))).
Proof.
  unfold filter_topics. cbn [filter_loop].
  destruct (keeps_topic category q t) as [ [ | ] | e ]; cbn [and_then];
    [ | | done ].
  - rewrite filter_loop_acc. by destruct (filter_loop category q topics []).
  - by destruct (filter_loop category q topics []).
Qed.

(** X10: with the category [All] and an empty query the filter keeps the whole
    list, whatever its items are. *)
Theorem filter_topics_all (topics : list json) :
  filter_topics "All" EmptyString topics = Ok topics.
Proof.
  induction topics as [ | t topics IH ]; [ done | ].
  rewrite filter_topics_cons, IH. done.
Qed.

Lemma filter_topics_spec (category q : string) (topics filtered : list json) :
  filter_topics category q topics = Ok filtered
  <-> Forall (fun t => exists keep, keeps_topic category q t = Ok keep) topics
      /\ filtered
         = List.filter
             (fun t => match keeps_topic category q t with
                       | Ok true => true
                       | _ => false
                       end) topics.
Proof.
  revert filtered. induction topics as [ | t topics IH ]; intros filtered.
  - cbn. split; [ intros [= <-]; by split | by intros [_ ->] ].
  - rewrite filter_topics_cons, Forall_cons. cbn [List.filter].
    destruct (keeps_topic category q t) as [ keep | e ]; cbn [and_then].
    + destruct (filter_topics category q topics) as [ rest | e ];
        cbn [and_then].
      * destruct (IH rest) as [[Hall ->] _]; [ done | ].
        split.
        -- intros [= <-]. split; [ by split; [ eexists | ] | ].
           by destruct keep.
        -- intros [_ ->]. by destruct keep.
      * split; [ done | ]. intros [[_ Hall] ->].
        discriminate (proj2 (IH _) (conj Hall eq_refl)).
    + split; [ done | ]. by intros [[[keep Hk] _] _].
Qed.

(** X11: every topic the filter keeps matches the query and, when a category
    other than [All] is chosen, has it as its category; the topics kept
    are topics of the list, in the order of the list. *)
Theorem filter_topics_kept (category q : string)
    (topics filtered : list json) :
  filter_topics category q topics = Ok filtered ->
  sublist filtered topics
  /\ Forall (fun t =>
               matches_search t q = Ok true
               /\ (category <> "All" ->
                   dict_get t "category" JNull = Ok (JStr category)))
       filtered.
Proof.
  intros [_ ->]%filter_topics_spec. split.
  - induction topics as [ | t topics IH ]; [ done | ]. cbn [List.filter].
    destruct (keeps_topic category q t) as [ [ | ] | ];
      first [ by apply sublist_skip | by apply sublist_cons ].
  - apply Forall_forall. intros t [_ Ht]%list_elem_of_In%filter_In.
    destruct (keeps_topic category q t) as [ [ | ] | ] eqn:Hk; try done.
    unfold keeps_topic in Hk.
    destruct (String.eqb category "All") eqn:Hcat; cbn [negb] in Hk.
    + split; [ done | ]. by apply String.eqb_eq in Hcat.
    + destruct (dict_get t "category" JNull) as [ c | ] eqn:Hc; [ | done ].
      cbn [and_then] in Hk.
      destruct (differs_from_str c category) eqn:Hd; [ done | ].
      split; [ done | ]. intros _. f_equal.
      destruct c; try done. cbn in Hd. apply negb_false_iff in Hd.
      by apply String.eqb_eq in Hd as ->.
Qed.

Lemma filter_topics_kept_witness :
  filter_topics "Everyday Symptoms" "head"
    [ JDict [ ("title", JStr "Headache");
              ("category", JStr "Everyday Symptoms") ];
      JDict [ ("title", JStr "Head cold") ] ]
  = Ok [ JDict [ ("title", JStr "Headache");
                 ("category", JStr "Everyday Symptoms") ] ]
  /\ sublist
       [ JDict [ ("title", JStr "Headache");
                 ("category", JStr "Everyday Symptoms") ] ]
       [ JDict [ ("title", JStr "Headache");
                 ("category", JStr "Everyday Symptoms") ];
         JDict [ ("title", JStr "Head cold") ] ].
Proof.
  split; [ reflexivity | ].
  apply (filter_topics_kept "Everyday Symptoms" "head"). reflexivity.
Defined.

Lemma and_then_ok {A} (r : result A) : and_then r (fun a => Ok a) = r.
Proof. by destruct r. Qed.

(** X12: the filter ends well exactly when the body of its loop does on every
    topic, and then it returns, in their order, the topics for which the
    body reaches [append]; it raises exactly what the body raises on the
    first topic where it raises. *)
Theorem filter_topics_ok (category q : string) (topics : list json) :
  (forall filtered,
     filter_topics category q topics = Ok filtered
     <-> Forall (fun t => exists keep, keeps_topic category q t = Ok keep)
           topics
         /\ filtered
            = List.filter
                (fun t => match keeps_topic category q t with
                          | Ok true => true
                          | _ => false
                          end) topics)
  /\ (forall e,
        filter_topics category q topics = Raise e
        <-> exists before t after,
              topics = before ++ t :: after
              /\ Forall (fun t => exists keep,
                           keeps_topic category q t = Ok keep) before
              /\ keeps_topic category q t = Raise e).
Proof.
  split; [ intros filtered; apply filter_topics_spec | ].
  intros e. induction topics as [ | t0 topics IH ].
  - split; [ done | ]. by intros ([ | ? ? ] & ? & ? & ? & _).
  - rewrite filter_topics_cons.
    destruct (keeps_topic category q t0) as [ keep | e0 ] eqn:Hk;
      cbn [and_then].
    + transitivity (filter_topics category q topics = Raise e).
      { by destruct (filter_topics category q topics). }
      rewrite IH. split.
      * intros (before & t & after & -> & Hall & Ht).
        exists (t0 :: before), t, after. split; [ done | ].
        split; [ | done ]. constructor; [ by exists keep | done ].
      * intros ([ | t1 before ] & t & after & Heq & Hall & Ht);
          injection Heq as <- ->; [ congruence | ].
        apply Forall_cons in Hall as [_ Hall]. by exists before, t, after.
    + split.
      * intros [= <-]. by exists [], t0, topics.
      * intros ([ | t1 before ] & t & after & Heq & Hall & Ht);
          injection Heq as <- ->; [ congruence | ].
        apply Forall_cons in Hall as [[keep Hkeep] _]. congruence.
Qed.

Lemma keeps_topic_empty_query (category q : string) (t : json) :
  keeps_topic category q t
  = and_then (keeps_topic category EmptyString t) (fun keep =>
      if keep then matches_search t q else Ok false).
Proof.
  unfold keeps_topic. destruct (String.eqb category "All"); cbn [negb].
  - done.
  - destruct (dict_get t "category" JNull) as [ c | ]; cbn [and_then];
      [ | done ].
    by destruct (differs_from_str c category).
Qed.

(** X13: filtering by category and query at once is filtering by category, then
    filtering what is left by the query. *)
Theorem filter_topics_in_two_steps (category q : string)
    (topics filtered : list json) :
  filter_topics category q topics = Ok filtered
  <-> exists of_category,
        filter_topics category EmptyString topics = Ok of_category
        /\ filter_topics "All" q of_category = Ok filtered.
Proof.
  revert filtered. induction topics as [ | t topics IH ]; intros filtered.
  - cbn. split; [ intros [= <-]; by exists [] | ].
    by intros (g & [= <-] & [= <-]).
  - rewrite !filter_topics_cons, keeps_topic_empty_query.
    destruct (keeps_topic category EmptyString t) as [ [ | ] | e ];
      cbn [and_then].
    + destruct (filter_topics category q topics) as [ rest | e ].
      * destruct (proj1 (IH rest) eq_refl) as (g & Hg & Hrest).
        rewrite Hg. cbn [and_then]. split.
        -- intros Hf. exists (t :: g). split; [ done | ].
           rewrite filter_topics_cons. unfold keeps_topic at 1.
           cbn [String.eqb Ascii.eqb Bool.eqb negb]. by rewrite Hrest.
        -- intros (g' & [= <-] & Hf).
           rewrite filter_topics_cons in Hf. unfold keeps_topic at 1 in Hf.
           cbn [String.eqb Ascii.eqb Bool.eqb negb] in Hf.
           by rewrite Hrest in Hf.
      * split; [ by destruct (matches_search t q) | ].
        intros (g' & Hg' & Hf).
        destruct (filter_topics category EmptyString topics) as [ g | ];
          [ | done ].
        cbn [and_then] in Hg'. injection Hg' as <-.
        rewrite filter_topics_cons in Hf. unfold keeps_topic at 1 in Hf.
        cbn [String.eqb Ascii.eqb Bool.eqb negb] in Hf.
        destruct (matches_search t q); [ | done ]. cbn [and_then] in Hf.
        destruct (filter_topics "All" q g) as [ r | ] eqn:Hr; [ | done ].
        by discriminate (proj2 (IH r) (ex_intro _ g (conj eq_refl Hr))).
    + cbn [and_then]. rewrite !and_then_ok. apply IH.
    + split; [ done | ]. by intros (g' & [=] & _).
Qed.

(** ** The file name of an image *)

Lemma lstrip_chars_head (chars s : string) :
  match lstrip_chars chars s with
  | EmptyString => True
  | String c _ => has_char (Ascii.eqb c) chars = false
  end.
Proof.
  induction s as [ | c s IH ]; [ done | ]. cbn [lstrip_chars].
  by destruct (has_char (Ascii.eqb c) chars) eqn:Hc.
Qed.

Lemma lstrip_chars_keeps (chars s : string) :
  match s with
  | EmptyString => True
  | String c _ => has_char (Ascii.eqb c) chars = false
  end ->
  lstrip_chars chars s = s.
Proof. destruct s as [ | c s ]; [ done | ]. cbn. by intros ->. Qed.

Lemma replace_from_skip (old new p rest : string) :
  replace_from (String.length p) old new (p +:+ rest)
  = replace_from 0 old new rest.
Proof. induction p as [ | c p IH ]; app_simpl; [ by destruct rest | done ]. Qed.

Lemma replace_from_absent (old new s : string) :
  contains old s = false -> replace_from 0 old new s = s.
Proof.
  induction s as [ | c s IH ]; [ done | ].
  cbn [contains replace_from]. intros [-> Hs]%orb_false_iff.
  by rewrite IH.
Qed.

Lemma replace_first (a : ascii) (old new rest : string) :
  replace (String a old) new (String a old +:+ rest)
  = new +:+ replace (String a old) new rest.
Proof.
  unfold replace. app_simpl. cbn [replace_from].
  assert (Hs : startswith (String a old) (String a (old +:+ rest)) = true).
  { apply startswith_spec. by exists rest. }
  rewrite Hs.
  replace (String.length (String a old) - 1) with (String.length old)
    by (cbn [String.length]; lia).
  by rewrite replace_from_skip.
Qed.

(** X14: the name never starts with a slash. *)
Theorem image_fname_no_leading_slash (src : string) :
  startswith "/" (image_fname src) = false.
Proof.
  unfold image_fname.
  pose proof (lstrip_chars_head "/"
                (replace "/images/" EmptyString src)) as Hhead.
  destruct (lstrip_chars "/" _) as [ | c r ]; [ done | ].
  cbn [has_char] in Hhead. apply orb_false_iff in Hhead as [Hc _].
  cbn [startswith]. by rewrite Ascii.eqb_sym, Hc.
Qed.

(** X15: a name that holds no [/images/] and does not start with a slash is
    kept as it is, and is found again behind the prefix [/images/]. *)
Theorem image_fname_of_images_path (name : string) :
  contains "/images/" name = false ->
  startswith "/" name = false ->
  image_fname ("/images/" +:+ name) = name /\ image_fname name = name.
Proof.
  intros Hc Hs.
  assert (Hname : lstrip_chars "/" name = name).
  { apply lstrip_chars_keeps. destruct name as [ | c r ]; [ done | ].
    cbn [startswith] in Hs. cbn [has_char]. rewrite Ascii.eqb_sym.
    destruct (Ascii.eqb "/" c); [ by destruct r | done ]. }
  unfold image_fname. rewrite replace_first. unfold replace.
  by rewrite replace_from_absent.
Qed.

Lemma image_fname_of_images_path_witness :
  contains "/images/" "bp-diagram.svg" = false
  /\ startswith "/" "bp-diagram.svg" = false
  /\ image_fname "/images/bp-diagram.svg" = "bp-diagram.svg".
Proof.
  split; [ reflexivity | ]. split; [ reflexivity | ].
  apply (image_fname_of_images_path "bp-diagram.svg"); reflexivity.
Defined.

(** Taking [/images/] out is done once: what is left can hold it again, and
    the parent directory is not taken out. *)
Example image_fname_not_cleaned :
  image_fname "/ima/images/ges/x.svg" = "images/x.svg"
  /\ image_fname "/images/../topics.json" = "../topics.json".
Proof. by vm_compute. Qed.

(** ** The grid of cards *)

Lemma row_cells_at {A} (draw : nat -> json -> result A)
    (filtered : list json) (i : nat) :
  i < length filtered ->
  match row_cells draw filtered i (range 0 cols_per_row 1) with
  | Ok row =>
      map cell_topic row ++ drop (i + cols_per_row) filtered = drop i filtered
      /\ (row <> []
          /\ map cell_column row = seq 0 (length row)
          /\ Forall (fun c =>
                       draw (cell_column c) (cell_topic c) = Ok (cell_drawn c))
               row)
      /\ (length row = cols_per_row \/ length filtered <= i + 1)
  | Raise e =>
      exists j t, j < cols_per_row /\ In t filtered /\ draw j t = Raise e
  end.
Proof.
  intros Hi. change (range 0 cols_per_row 1) with [0; 1].
  unfold cols_per_row. cbn [row_cells]. rewrite Nat.add_0_r.
  destruct (lookup_lt_is_Some_2 filtered i Hi) as [t Ht].
  rewrite (proj2 (Nat.leb_gt _ _) Hi), Ht.
  assert (Hin : In t filtered).
  { apply list_elem_of_In. by eapply list_elem_of_lookup_2. }
  destruct (draw 0 t) as [ a | e ] eqn:Ha; cbn [and_then];
    [ | exists 0, t; split; [ lia | done ] ].
  destruct (Nat.leb_spec (length filtered) (i + 1)) as [Hlast | Hnext].
  - cbn. rewrite (drop_S _ _ _ Ht). rewrite !drop_ge by lia.
    repeat split; auto.
  - destruct (lookup_lt_is_Some_2 filtered (i + 1) Hnext) as [t' Ht'].
    rewrite Ht'.
    assert (Hin' : In t' filtered).
    { apply list_elem_of_In. by eapply list_elem_of_lookup_2. }
    destruct (draw 1 t') as [ a' | e ] eqn:Ha'; cbn [and_then];
      [ | exists 1, t'; split; [ lia | done ] ].
    cbn. rewrite (drop_S _ _ _ Ht). rewrite Nat.add_1_r in Ht'.
    rewrite (drop_S _ _ _ Ht'). replace (i + 2) with (S (S i)) by lia.
    repeat split; auto.
Qed.

Lemma grid_rows_from {A} (draw : nat -> json -> result A)
    (filtered : list json) (rounds i : nat) :
  length filtered <= i + cols_per_row * rounds ->
  match grid_rows draw filtered
          (range_from rounds i (length filtered) cols_per_row) with
  | Ok rows => grid_drawn draw (drop i filtered) rows
  | Raise e =>
      exists j t, j < cols_per_row /\ In t filtered /\ draw j t = Raise e
  end.
Proof.
  assert (Hnone : grid_drawn draw [] []).
  { split; [ done | ]. split; [ constructor | by intros [ | ? ? ] last ]. }
  revert i. induction rounds as [ | rounds IH ]; intros i Hrounds.
  - cbn. by rewrite drop_ge by lia.
  - cbn [range_from]. destruct (Nat.ltb_spec i (length filtered)) as [Hi | Hi];
      [ | cbn; by rewrite drop_ge by lia ].
    cbn [grid_rows]. pose proof (row_cells_at draw filtered i Hi) as Hrow.
    destruct (row_cells draw filtered i (range 0 cols_per_row 1))
      as [ row | e ]; cbn [and_then]; [ | exact Hrow ].
    destruct Hrow as (Hdrop & Hrow & Hfull).
    specialize (IH (i + cols_per_row)).
    destruct (grid_rows draw filtered _) as [ rows | e ]; cbn [and_then];
      [ | apply IH; unfold cols_per_row in *; lia ].
    destruct IH as (Hcat & Hall & Hlast); [ unfold cols_per_row in *; lia | ].
    split; [ cbn [map List.concat]; by rewrite Hcat | ].
    split; [ by constructor | ].
    intros [ | row' before ] last Heq; [ constructor | ].
    injection Heq as <- Heq. constructor; [ | by eapply Hlast ].
    destruct Hfull as [ Hfull | Hend ]; [ done | ].
    rewrite drop_ge in Hcat by (unfold cols_per_row; lia).
    destruct rows as [ | r rows ]; [ by destruct before | ].
    apply Forall_cons in Hall as [[Hr _] _].
    cbn [map List.concat] in Hcat. apply app_eq_nil in Hcat as [Hr' _].
    by destruct r.
Qed.

(** X16: whatever drawing a card does, the two loops of the grid never read
    the list out of range: when the grid raises, it is drawing a card of a
    topic of the list that raised.  When the grid ends well, every topic of
    the list was drawn once, in the order of the list; a row is not empty,
    its cards are in the columns 0, 1 in this order, and every row before
    the last one has both. *)
Theorem render_grid_covers {A} (draw : nat -> json -> result A)
    (filtered : list json) :
  match render_grid draw filtered with
  | Ok rows =>
      List.concat (map (map cell_topic) rows) = filtered
      /\ Forall (fun row =>
                   row <> []
                   /\ map cell_column row = seq 0 (length row)
                   /\ Forall (fun c =>
                                draw (cell_column c) (cell_topic c)
                                = Ok (cell_drawn c)) row) rows
      /\ (forall before last,
            rows = before ++ [last] ->
            Forall (fun row => length row = cols_per_row) before)
  | Raise e =>
      exists j t, j < cols_per_row /\ In t filtered /\ draw j t = Raise e
  end.
Proof.
  pose proof (grid_rows_from draw filtered (length filtered) 0) as Hgrid.
  unfold render_grid, range.
  destruct (grid_rows draw filtered _) as [ rows | e ];
    [ | apply Hgrid; unfold cols_per_row; lia ].
  destruct Hgrid as (Hcat & Hall & Hlast); [ unfold cols_per_row; lia | ].
  by rewrite drop_0 in Hcat.
Qed.

(** A list with an item that is no dict passes the filter when nothing is
    asked; drawing its card starts with [t.get], which raises, and the
    grid raises with it. *)
Example render_grid_raises_with_draw :
  filter_topics "All" EmptyString [ JInt 5; JDict [] ]
  = Ok [ JInt 5; JDict [] ]
  /\ render_grid (fun _ t => dict_get t "title" (JStr "Untitled"))
       [ JInt 5; JDict [] ]
     = Raise AttributeError.
Proof. by vm_compute. Qed.
